(** * Empli gateway: session core and permission system

    A shallow embedding of two parts of the gateway:

    - the class [PermissionSystem] (permissions.js): the classification of
      a tool call as allowed / denied / needs_approval, and the recording
      of decisions;
    - the class [Gateway] (core/gateway.js): per-session promise-chain
      locking, the unit of work [_processMessage], and session
      persistence;
    - what goes with them: the request that [_callAgent] builds, the
      memory files, and [splitMessage] of the Discord and Telegram
      channels.

    JavaScript strings are sequences of UTF-16 code units; they are modelled
    as [list N], one number per code unit.  Regular expressions without the
    [u] flag work on code units, and so do [trim], [split] and [replace]. *)

From Stdlib Require Import ZArith NArith List Lia Bool Ascii String.
From stdpp Require Import gmap strings list fin_maps.

Open Scope N_scope.

(** ** JavaScript strings *)

Module JS.

Abbreviation jsstring := (list N).

(** A string literal, one code unit per (ASCII) character. *)
Fixpoint js (s : string) : jsstring :=
  match s with
  | EmptyString => []
  | String a s' => N_of_ascii a :: js s'
  end.

Definition in_range (lo hi c : N) : bool := (lo <=? c) && (c <=? hi).

Definition is_digit (c : N) : bool := in_range 48 57 c.
Definition is_upper (c : N) : bool := in_range 65 90 c.
Definition is_lower (c : N) : bool := in_range 97 122 c.

(** [\w]: the word characters [A-Za-z0-9_]. *)
Definition is_word (c : N) : bool :=
  is_lower c || is_upper c || is_digit c || (c =? 95).

(** LineTerminator: LF, CR, LS, PS. *)
Definition is_line_terminator (c : N) : bool :=
  (c =? 10) || (c =? 13) || (c =? 8232) || (c =? 8233).

(** [\s], which is also what [trim] strips: WhiteSpace and LineTerminator. *)
Definition is_space (c : N) : bool :=
  in_range 9 13 c || (c =? 32) || (c =? 160) || (c =? 5760)
  || in_range 8192 8202 c || (c =? 8232) || (c =? 8233) || (c =? 8239)
  || (c =? 8287) || (c =? 12288) || (c =? 65279).

(** Equality of strings, as [===] on two strings. *)
Fixpoint str_eqb (s t : jsstring) : bool :=
  match s, t with
  | [], [] => true
  | a :: s', b :: t' => (a =? b) && str_eqb s' t'
  | _, _ => false
  end.

(** [Array.prototype.includes] / [Set.prototype.has] on strings. *)
Definition includes (l : list jsstring) (k : jsstring) : bool :=
  existsb (str_eqb k) l.

Fixpoint drop_while (p : N → bool) (s : jsstring) : jsstring :=
  match s with
  | [] => []
  | c :: s' => if p c then drop_while p s' else s
  end.

Fixpoint take_while (p : N → bool) (s : jsstring) : jsstring :=
  match s with
  | [] => []
  | c :: s' => if p c then c :: take_while p s' else []
  end.

(** [String.prototype.trim]. *)
Definition trim (s : jsstring) : jsstring :=
  rev (drop_while is_space (rev (drop_while is_space s))).

(** [s.split(/\s+/)[0]]: the text before the first run of white space
    (the empty string when [s] starts with white space or is empty). *)
Definition split_ws_first (s : jsstring) : jsstring :=
  take_while (λ c, negb (is_space c)) s.

End JS.

Import JS.

(** ** Regular expressions

    The fragment of the regular expressions of [DANGEROUS_PATTERNS]:
    single-character matchers, sequence, alternation, Kleene star and the
    word-boundary assertion.  None of the patterns has a back-reference, a
    look-around or the [g]/[y] flag, so [RegExp.prototype.test] is true
    exactly when some substring matches. *)

Module Regex.

Inductive regex :=
  | RChar (p : N → bool)
  | REps
  | RSeq (r1 r2 : regex)
  | RAlt (r1 r2 : regex)
  | RStar (r : regex)
  | RWordB.

Definition RPlus (r : regex) : regex := RSeq r (RStar r).
Definition ROpt (r : regex) : regex := RAlt r REps.

Definition lit (c : N) : regex := RChar (N.eqb c).

(** A letter under the [i] flag: for an ASCII letter the only code units
    with the same canonical form are its two cases. *)
Definition lit_i (c : N) : regex :=
  RChar (λ x, (x =? c) || (is_upper c && (x =? c + 32))
                       || (is_lower c && (x =? c - 32))).

Fixpoint seq_of (f : N → regex) (s : jsstring) : regex :=
  match s with
  | [] => REps
  | [c] => f c
  | c :: s' => RSeq (f c) (seq_of f s')
  end.

Definition str (s : string) : regex := seq_of lit (js s).
Definition str_i (s : string) : regex := seq_of lit_i (js s).

(** [\s], [.] and [[0-7]]. *)
Definition space : regex := RChar is_space.
Definition dot : regex := RChar (λ c, negb (is_line_terminator c)).
Definition octal : regex := RChar (in_range 48 55).

Fixpoint cat (rs : list regex) : regex :=
  match rs with
  | [] => REps
  | [r] => r
  | r :: rs' => RSeq r (cat rs')
  end.

Section Matcher.
Variable s : jsstring.

Definition word_at (i : nat) : bool :=
  match s !! i with Some c => is_word c | None => false end.

(** [\b] holds at [i] when exactly one of the characters before and at
    [i] is a word character. *)
Definition boundary (i : nat) : bool :=
  xorb (match i with O => false | S j => word_at j end) (word_at i).

(** Repetition of a matcher [f], each iteration consuming input, at most
    [n] times. *)
Fixpoint star (f : nat → list nat) (n : nat) (i : nat) : list nat :=
  i :: match n with
       | O => []
       | S n' => flat_map (λ j, if (i <? j)%nat then star f n' j else []) (f i)
       end.

(** [ends r i]: the positions [j] such that [r] matches [s] from [i] to
    [j]. *)
Fixpoint ends (r : regex) (i : nat) : list nat :=
  match r with
  | RChar p =>
      match s !! i with
      | Some c => if p c then [S i] else []
      | None => []
      end
  | REps => [i]
  | RSeq r1 r2 => flat_map (ends r2) (ends r1 i)
  | RAlt r1 r2 => ends r1 i ++ ends r2 i
  | RStar r' => star (ends r') (length s) i
  | RWordB => if boundary i then [i] else []
  end.

Definition matches_at (r : regex) (i : nat) : bool :=
  match ends r i with [] => false | _ => true end.

(** [r.test(s)]. *)
Definition test (r : regex) : bool :=
  existsb (matches_at r) (seq 0 (S (length s))).
End Matcher.

End Regex.

(** ** The permission system (permissions.js) *)

Module Permissions.
Import Regex.

(** Commands that are always safe. *)
Definition SAFE_COMMANDS : list jsstring := map js
  [ "ls"; "cat"; "head"; "tail"; "wc"; "date"; "whoami"; "echo";
    "pwd"; "which"; "file"; "stat"; "du"; "df"; "uname"; "env";
    "hostname"; "uptime"; "id"; "groups"; "printenv"; "locale";
    "find"; "grep"; "awk"; "sed"; "sort"; "uniq"; "tr"; "cut";
    "diff"; "md5sum"; "sha256sum"; "base64"; "wc";
    "git status"; "git log"; "git diff"; "git branch"; "git remote";
    "node --version"; "npm --version"; "python --version";
    "python3 --version" ]%string.

(** The shells of the two pipe patterns: [(bash|sh|zsh)]. *)
Definition shells : regex := RAlt (str "bash") (RAlt (str "sh") (str "zsh")).

(** Patterns that always require approval, in the order of the source. *)
Definition DANGEROUS_PATTERNS : list regex :=
  [ (* /\brm\s+-rf?\b/ *)
    cat [RWordB; str "rm"; RPlus space; str "-r"; ROpt (str "f"); RWordB];
    (* /\bsudo\b/ *)
    cat [RWordB; str "sudo"; RWordB];
    (* /\bchmod\s+[0-7]{3,4}\b/ *)
    cat [RWordB; str "chmod"; RPlus space;
         octal; octal; octal; ROpt octal; RWordB];
    (* /\bcurl\b.*\|\s*(bash|sh|zsh)\b/ *)
    cat [RWordB; str "curl"; RWordB; RStar dot; str "|"; RStar space;
         shells; RWordB];
    (* /\bwget\b.*\|\s*(bash|sh|zsh)\b/ *)
    cat [RWordB; str "wget"; RWordB; RStar dot; str "|"; RStar space;
         shells; RWordB];
    (* /\bdd\s+if=/ *)
    cat [RWordB; str "dd"; RPlus space; str "if="];
    (* /\bmkfs\b/ *)
    cat [RWordB; str "mkfs"; RWordB];
    (* /\bformat\b/ *)
    cat [RWordB; str "format"; RWordB];
    (* />\s*\/dev\// *)
    cat [str ">"; RStar space; str "/dev/"];
    (* /\bshutdown\b/ *)
    cat [RWordB; str "shutdown"; RWordB];
    (* /\breboot\b/ *)
    cat [RWordB; str "reboot"; RWordB];
    (* /\bkillall\b/ *)
    cat [RWordB; str "killall"; RWordB];
    (* /\bpkill\b/ *)
    cat [RWordB; str "pkill"; RWordB];
    (* /DROP\s+TABLE/i *)
    cat [str_i "DROP"; RPlus space; str_i "TABLE"];
    (* /DROP\s+DATABASE/i *)
    cat [str_i "DROP"; RPlus space; str_i "DATABASE"] ].

(** Tools that are always safe. *)
Definition SAFE_TOOLS : list jsstring := map js
  [ "read_file"; "list_directory"; "search_files"; "system_info";
    "list_processes"; "clipboard_read"; "memory_search"; "memory_list";
    "list_scheduled"; "web_search"; "web_fetch";
    "calendar_list_events"; "calendar_get_event"; "calendar_find_free_time";
    "calendar_list_calendars";
    "drive_list_files"; "drive_get_file"; "drive_read_file";
    "sheets_read"; "sheets_get_info";
    "github_list_repos"; "github_get_repo"; "github_list_issues";
    "github_get_issue";
    "github_list_prs"; "github_get_pr"; "github_get_file"; "github_list_files";
    "github_search_code"; "github_list_workflows"; "github_notifications";
    "sms_list"; "call_list"; "phone_lookup";
    "notion_search"; "notion_get_page"; "notion_query_database";
    "notion_get_database";
    "docker_list_containers"; "docker_logs"; "docker_inspect"; "docker_stats";
    "docker_list_images"; "docker_compose_ps"; "docker_list_networks";
    "docker_list_volumes";
    "db_query"; "db_list_tables"; "db_describe_table"; "db_list_databases";
    "db_table_stats" ]%string.

(** Tools that modify things but are generally ok. *)
Definition MODERATE_TOOLS : list jsstring := map js
  [ "write_file"; "append_file"; "edit_file"; "copy_file"; "move_file";
    "web_download"; "clipboard_write"; "notify"; "open"; "screenshot";
    "memory_save"; "memory_delete"; "schedule_task"; "cancel_scheduled";
    "calendar_create_event"; "calendar_update_event";
    "drive_upload_file"; "drive_create_file"; "drive_create_folder";
    "drive_share_file"; "drive_move_file";
    "sheets_write"; "sheets_append"; "sheets_create"; "sheets_add_sheet";
    "sheets_clear";
    "github_create_repo"; "github_create_issue"; "github_update_issue";
    "github_comment_issue";
    "github_create_pr"; "github_trigger_workflow";
    "sms_send"; "call_make";
    "notion_create_page"; "notion_update_page"; "notion_append_blocks";
    "notion_create_database";
    "docker_run"; "docker_start"; "docker_restart"; "docker_exec";
    "docker_pull"; "docker_build";
    "docker_compose_up";
    "db_insert"; "db_update"; "db_create_table"; "db_export";
    "db_import" ]%string.

(** Tools that need extra caution.  The set is declared by the source and
    read by none of its functions. *)
Definition DANGEROUS_TOOLS : list jsstring := map js
  [ "bash"; "delete_file"; "kill_process";
    "calendar_delete_event"; "drive_delete_file";
    "github_merge_pr";
    "docker_stop"; "docker_remove"; "docker_compose_down";
    "docker_system_prune";
    "db_execute"; "db_delete" ]%string.

(** The local [commonCommands] of [_checkBash]. *)
Definition commonCommands : list jsstring := map js
  [ "mkdir"; "touch"; "cp"; "mv"; "ln"; "tar"; "zip"; "unzip"; "gzip";
    "curl"; "wget"; "ssh"; "scp"; "rsync";
    "git"; "npm"; "npx"; "yarn"; "pnpm"; "pip"; "pip3"; "python"; "python3";
    "node";
    "docker"; "brew"; "apt"; "apt-get"; "code"; "open"; "xdg-open";
    "make"; "cmake"; "cargo"; "go"; "java"; "javac"; "ruby"; "php" ]%string.

(** The values a field of a tool input takes in this model: a missing field
    reads as [JUndefined]. *)
Inductive jsvalue :=
  | JUndefined
  | JNull
  | JBool (b : bool)
  | JStr (s : jsstring).

Definition truthy (v : jsvalue) : bool :=
  match v with
  | JUndefined | JNull => false
  | JBool b => b
  | JStr s => match s with [] => false | _ => true end
  end.

(** The text of [v] inside a template literal. *)
Definition template (v : jsvalue) : jsstring :=
  match v with
  | JUndefined => js "undefined"
  | JNull => js "null"
  | JBool b => if b then js "true" else js "false"
  | JStr s => s
  end.

(** A tool input: an object, its fields in insertion order. *)
Abbreviation jsobject := (list (jsstring * jsvalue)).

Fixpoint get (o : jsobject) (k : jsstring) : jsvalue :=
  match o with
  | [] => JUndefined
  | (k', v) :: o' => if str_eqb k k' then v else get o' k
  end.

(** The three answers of [check]. *)
Inductive verdict := Allowed | Denied | NeedsApproval.

(** A call either returns or throws a [TypeError]. *)
Inductive completion (A : Type) :=
  | Return (a : A)
  | ThrowTypeError.
Arguments Return {A} a.
Arguments ThrowTypeError {A}.

(** [this.approvals]: the two arrays of recorded decision keys. *)
Record Approvals := mkApprovals {
  allowed : list jsstring;
  denied : list jsstring
}.

(** What [_load] returns when there is no file. *)
Definition no_approvals : Approvals := mkApprovals [] [].

Definition is_dangerous (trimmed : jsstring) : bool :=
  existsb (test trimmed) DANGEROUS_PATTERNS.

Section Check.
(** [JSON.stringify] on a tool input, a function of the host. *)
Variable JSON_stringify : jsobject → jsstring.

Definition _checkApproval (a : Approvals) (toolName : jsstring)
    (input : jsobject) : verdict :=
  let key := toolName ++ js ":" ++ JSON_stringify input in
  if includes (allowed a) key then Allowed
  else if includes (denied a) key then Denied
  else NeedsApproval.

(** [_checkBash] on a command that is a non-empty string.  The loop over
    [DANGEROUS_PATTERNS] returns at the first pattern that matches, and
    what it returns does not depend on which one it is. *)
Definition _checkBash_string (a : Approvals) (command : jsstring) : verdict :=
  let trimmed := trim command in
  let baseCmd := split_ws_first trimmed in
  if includes SAFE_COMMANDS baseCmd || includes SAFE_COMMANDS trimmed
  then Allowed
  else if is_dangerous trimmed then
    let key := js "bash:" ++ trimmed in
    if includes (allowed a) key then Allowed
    else if includes (denied a) key then Denied
    else NeedsApproval
  else
    let baseKey := js "bash_cmd:" ++ baseCmd in
    if includes (allowed a) baseKey then Allowed
    else
      let exactKey := js "bash:" ++ trimmed in
      if includes (allowed a) exactKey then Allowed
      else if includes (denied a) exactKey then Denied
      else if includes commonCommands baseCmd then Allowed
      else NeedsApproval.

(** [_checkBash]: a falsy command is denied; a truthy one that is not a
    string has no [trim] method. *)
Definition _checkBash (a : Approvals) (command : jsvalue)
    : completion verdict :=
  if negb (truthy command) then Return Denied
  else match command with
       | JStr s => Return (_checkBash_string a s)
       | _ => ThrowTypeError
       end.

Definition check (a : Approvals) (toolName : jsstring) (input : jsobject)
    : completion verdict :=
  if includes SAFE_TOOLS toolName then Return Allowed
  else if includes MODERATE_TOOLS toolName then
    if str_eqb toolName (js "delete_file") && truthy (get input (js "recursive"))
    then Return (_checkApproval a toolName input)
    else Return Allowed
  else if str_eqb toolName (js "bash") then
    _checkBash a (get input (js "command"))
  else if str_eqb toolName (js "kill_process") then
    Return (_checkApproval a toolName input)
  else Return (_checkApproval a toolName input).

(** The key under which [approve] records a decision. *)
Definition approve_key (toolName : jsstring) (input : jsobject) : jsstring :=
  if str_eqb toolName (js "bash")
  then js "bash:" ++ template (get input (js "command"))
  else toolName ++ js ":" ++ JSON_stringify input.

Definition push (l : list jsstring) (k : jsstring) : list jsstring :=
  if includes l k then l else l ++ [k].

(** [approve]: the key is appended to the chosen array unless it is
    there already. *)
Definition approve (a : Approvals) (toolName : jsstring) (input : jsobject)
    (allow : bool) : Approvals :=
  let key := approve_key toolName input in
  if allow then mkApprovals (push (allowed a) key) (denied a)
  else mkApprovals (allowed a) (push (denied a) key).

Definition approveCommand (a : Approvals) (command : jsstring) : Approvals :=
  mkApprovals (push (allowed a) (js "bash_cmd:" ++ command)) (denied a).
End Check.

End Permissions.

(** ** [JSON.stringify] on tool inputs

    The host function on the objects of this model: fields in insertion
    order, fields that are [undefined] left out, strings quoted as
    QuoteJSONString does. *)

Module Json.
Import Permissions.

Definition hex_digit (n : N) : N := if n <? 10 then 48 + n else 87 + n.

(** [\uXXXX] with lower-case hexadecimal digits. *)
Definition unicode_escape (c : N) : jsstring :=
  [92; 117; hex_digit (c / 4096 mod 16); hex_digit (c / 256 mod 16);
   hex_digit (c / 16 mod 16); hex_digit (c mod 16)].

Definition is_high_surrogate (c : N) : bool := in_range 55296 56319 c.
Definition is_low_surrogate (c : N) : bool := in_range 56320 57343 c.

Definition quote_unit (c : N) : jsstring :=
  if c =? 8 then [92; 98]
  else if c =? 9 then [92; 116]
  else if c =? 10 then [92; 110]
  else if c =? 12 then [92; 102]
  else if c =? 13 then [92; 114]
  else if c =? 34 then [92; 34]
  else if c =? 92 then [92; 92]
  else if (c <? 32) || is_low_surrogate c then unicode_escape c
  else [c].

Fixpoint quote_units (s : jsstring) : jsstring :=
  match s with
  | [] => []
  | c :: s' =>
      if is_high_surrogate c then
        match s' with
        | d :: s'' =>
            if is_low_surrogate d then c :: d :: quote_units s''
            else unicode_escape c ++ quote_units s'
        | [] => unicode_escape c
        end
      else quote_unit c ++ quote_units s'
  end.

Definition quote (s : jsstring) : jsstring := [34] ++ quote_units s ++ [34].

Definition stringify_value (v : jsvalue) : option jsstring :=
  match v with
  | JUndefined => None
  | JNull => Some (js "null")
  | JBool b => Some (if b then js "true" else js "false")
  | JStr s => Some (quote s)
  end.

Fixpoint members (o : jsobject) : list jsstring :=
  match o with
  | [] => []
  | (k, v) :: o' =>
      match stringify_value v with
      | Some t => (quote k ++ js ":" ++ t) :: members o'
      | None => members o'
      end
  end.

Fixpoint join (sep : jsstring) (l : list jsstring) : jsstring :=
  match l with
  | [] => []
  | [x] => x
  | x :: l' => x ++ sep ++ join sep l'
  end.

Definition stringify (o : jsobject) : jsstring :=
  js "{" ++ join (js ",") (members o) ++ js "}".

End Json.

(** ** The gateway core (core/gateway.js) *)

Module Gateway.

Open Scope Z_scope.

(** One line of a session file; also one element of [session.history].
    A turn written by the gateway has the fields [role], [content],
    [timestamp] and, for a user turn, [sender] and [channel]; a turn read
    from a file may also carry a [conversationId]. *)
Record Turn := mkTurn {
  role : jsstring;
  content : jsstring;
  sender : option jsstring;
  timestamp : Z;
  channel : option jsstring;
  conversationId : option jsstring
}.

Record Session := mkSession {
  history : list Turn;
  session_conversationId : option jsstring;
  lastActivity : Z
}.

(** The argument of [handleMessage].  [chatName] and [metadata] only
    travel to the request body of the agent call and are left out. *)
Record Event := mkEvent {
  ev_channel : jsstring;
  ev_chatId : jsstring;
  ev_sender : jsstring;
  ev_text : jsstring;
  ev_timestamp : option Z
}.

(** What [_processMessage] returns when the agent replied. *)
Record Reply := mkReply {
  reply : jsstring;
  sessionKey : jsstring
}.

(** The fields of the configuration that the gateway core reads. *)
Record Config := mkConfig {
  endpoint : jsstring;
  maxHistory : option Z;
  channels : gmap (list N) (list N)
}.

(** A session file: the turns its lines parse to, or text that
    [_loadSession] fails on. *)
Inductive FileContent :=
  | Lines (turns : list Turn)
  | Corrupt.

(** The body of the agent's answer, as far as [_callAgent] reads it. *)
Record AgentData := mkAgentData {
  data_reply : option jsstring;
  data_response : option jsstring;
  data_text : option jsstring;
  data_conversationId : option jsstring;
  data_conversation_id : option jsstring
}.

(** How the [fetch] of [_callAgent] ends. *)
Inductive FetchOutcome :=
  | FetchRejected            (* network error, or the 60 s timeout aborts *)
  | NotOk                    (* [response.ok] is false *)
  | BadJson                  (* [response.json()] rejects *)
  | Json (data : AgentData).

Record AgentResponse := mkAgentResponse {
  agent_reply : option jsstring;
  agent_conversationId : option jsstring
}.

(** A settled promise. *)
Inductive settled :=
  | Fulfilled (v : option Reply)
  | Rejected (msg : jsstring).

(** The promise that [handleMessage] stores in [this.locks] is
    [prevLock.then(unit).catch(handler)]; it is waiting while [prevLock] is
    pending or its reaction has not run, running while the unit of work is
    suspended at [await this._callAgent(...)], and settled afterwards. *)
Inductive status :=
  | Waiting (prev : option nat)  (* [None]: [Promise.resolve()] *)
  | Running (session : nat)      (* the session object the unit holds *)
  | Settled (o : settled).

Record Promise := mkPromise {
  event : Event;
  state : status
}.

(** What an observer of the gateway sees, in order. *)
Inductive obs :=
  | ORun (p : nat)                       (* the unit of work of [p] starts *)
  | OSkip (p : nat)                      (* [then] skipped the unit of [p] *)
  | OSettle (p : nat) (o : settled).     (* [p] settles *)

(** The gateway and its disk.  Session objects live in [heap] and
    [this.sessions] maps a key to a reference, since a suspended unit of
    work keeps its session object while the map may change.  [log] is not
    state of the program: it records the observations. *)
Record State := mkState {
  sessions : gmap (list N) nat;
  heap : list Session;
  files : gmap (list N) FileContent;
  locks : gmap (list N) nat;
  promises : list Promise;
  log : list obs
}.

Definition init (disk : gmap (list N) FileContent) : State :=
  mkState ∅ [] disk ∅ [] [].

Definition truthy (o : option jsstring) : bool :=
  match o with
  | Some (_ :: _) => true
  | _ => false
  end.

(** [a || b || ... || null]. *)
Fixpoint first_truthy (l : list (option jsstring)) : option jsstring :=
  match l with
  | [] => None
  | o :: l' => if truthy o then o else first_truthy l'
  end.

(** [l.slice(start)] for an integer [start]. *)
Definition slice (start : Z) {A} (l : list A) : list A :=
  let len := Z.of_nat (length l) in
  let from := if start <? 0 then Z.max (len + start) 0 else Z.min start len in
  drop (Z.to_nat from) l.

(** [`${channel}:${chatId}`]. *)
Definition sessionKey_of (ev : Event) : jsstring :=
  ev_channel ev ++ js ":" ++ ev_chatId ev.

Definition key (P : Promise) : jsstring := sessionKey_of (event P).

(** The replacement of [/[^a-zA-Z0-9_-]/g] by ['_']. *)
Definition safe_char (c : N) : bool :=
  is_lower c || is_upper c || is_digit c || (c =? 95)%N || (c =? 45)%N.

Definition sanitize (c : N) : N := if safe_char c then c else 95%N.

(** [_sessionPath], as the name of the file inside [sessionsDir]. *)
Definition _sessionPath (sessionKey : jsstring) : jsstring :=
  map sanitize sessionKey ++ js ".jsonl".

(** The [conversationId] of the last assistant turn, when it has one. *)
Definition recover_conversationId (h : list Turn) : option jsstring :=
  match find (λ t, str_eqb (role t) (js "assistant")) (rev h) with
  | Some lastAssistant =>
      if truthy (conversationId lastAssistant)
      then conversationId lastAssistant else None
  | None => None
  end.

(** The session that [_loadSession] builds when the key is not in memory. *)
Definition session_from_disk (file : option FileContent) (now : Z) : Session :=
  match file with
  | Some (Lines h) => mkSession h (recover_conversationId h) now
  | Some Corrupt | None => mkSession [] None now
  end.

Definition _loadSession (σ : State) (sessionKey : jsstring) (now : Z)
    : State * nat :=
  match sessions σ !! sessionKey with
  | Some r => (σ, r)
  | None =>
      let session := session_from_disk (files σ !! _sessionPath sessionKey) now in
      let r := length (heap σ) in
      (mkState (<[sessionKey := r]> (sessions σ)) (heap σ ++ [session])
               (files σ) (locks σ) (promises σ) (log σ), r)
  end.

Definition user_turn (ev : Event) (now : Z) : Turn :=
  mkTurn (js "user") (ev_text ev) (Some (ev_sender ev))
         (match ev_timestamp ev with
          | Some t => if t =? 0 then now else t
          | None => now
          end)
         (Some (ev_channel ev)) None.

Definition assistant_turn (text : jsstring) (now : Z) : Turn :=
  mkTurn (js "assistant") text None now None None.

(** [_callAgent] after its [fetch] has ended. *)
Definition _callAgent_finish (fo : FetchOutcome) : option AgentResponse :=
  match fo with
  | FetchRejected | NotOk | BadJson => None
  | Json data =>
      Some (mkAgentResponse
              (first_truthy [data_reply data; data_response data; data_text data])
              (first_truthy [data_conversationId data; data_conversation_id data]))
  end.

(** How far a call of [_processMessage] gets in one run: it ends, or it
    is suspended at the agent call holding a session object. *)
Inductive proc :=
  | Done (o : settled)
  | Await (session : nat).

Definition set_heap (σ : State) (h : list Session) : State :=
  mkState (sessions σ) h (files σ) (locks σ) (promises σ) (log σ).

Section WithConfig.
Variable config : Config.

(** [this.config.maxHistory || 20]. *)
Definition effective_maxHistory : Z :=
  match maxHistory config with
  | Some m => if m =? 0 then 20 else m
  | None => 20
  end.

Definition truncate (h : list Turn) : list Turn :=
  if Z.of_nat (length h) >? effective_maxHistory
  then slice (- effective_maxHistory) h
  else h.

(** [channelConfig.endpoint || this.config.endpoint]; empty when neither
    is set. *)
Definition resolve_endpoint (channel : jsstring) : jsstring :=
  match channels config !! channel with
  | Some (c :: e) => c :: e
  | _ => endpoint config
  end.

(** [_processMessage] up to the agent call.  An empty history makes
    [_callAgent] fail before its [fetch], inside its [try]: no reply.
    [None] stands for a session reference without an object, which
    [_loadSession] never returns. *)
Definition _processMessage_begin (σ : State) (ev : Event) (now : Z)
    : option (State * proc) :=
  let '(σ1, r) := _loadSession σ (sessionKey_of ev) now in
  match heap σ1 !! r with
  | None => None
  | Some session =>
      let h := truncate (history session ++ [user_turn ev now]) in
      let session' :=
        mkSession h (session_conversationId session) (lastActivity session) in
      let σ2 := set_heap σ1 (<[r := session']> (heap σ1)) in
      match resolve_endpoint (ev_channel ev), h with
      | [], _ => Some (σ2, Done (Fulfilled None))
      | _, [] => Some (σ2, Done (Fulfilled None))
      | _, _ => Some (σ2, Await r)
      end
  end.

(** [_processMessage] from the answer of the agent on.  [write_error] is
    the message of the error [fs.writeFileSync] throws, if it does; the
    file is then taken to be as it was. *)
Definition _processMessage_resume (σ : State) (ev : Event) (r : nat)
    (fo : FetchOutcome) (now : Z) (write_error : option jsstring)
    : option (State * settled) :=
  match heap σ !! r with
  | None => None
  | Some session =>
      match _callAgent_finish fo with
      | None => Some (σ, Fulfilled None)
      | Some agentResponse =>
          match agent_reply agentResponse with
          | Some (c :: text) =>
              let cid :=
                if truthy (agent_conversationId agentResponse)
                then agent_conversationId agentResponse
                else session_conversationId session in
              let session' :=
                mkSession (history session ++ [assistant_turn (c :: text) now])
                          cid now in
              let sessionKey := sessionKey_of ev in
              let sessions' := <[sessionKey := r]> (sessions σ) in
              let heap' := <[r := session']> (heap σ) in
              match write_error with
              | Some msg =>
                  Some (mkState sessions' heap' (files σ) (locks σ)
                                (promises σ) (log σ), Rejected msg)
              | None =>
                  Some (mkState sessions' heap'
                          (<[_sessionPath sessionKey := Lines (history session')]>
                             (files σ))
                          (locks σ) (promises σ) (log σ),
                        Fulfilled (Some (mkReply (c :: text) sessionKey)))
              end
          | _ => Some (σ, Fulfilled None)
          end
      end
  end.

(** [handleMessage]: the new promise is chained on the tail of the key
    and becomes the tail; nothing of the unit of work runs yet. *)
Definition handleMessage (σ : State) (ev : Event) : State :=
  let sessionKey := sessionKey_of ev in
  let prevLock := locks σ !! sessionKey in
  let currentLock := length (promises σ) in
  mkState (sessions σ) (heap σ) (files σ)
          (<[sessionKey := currentLock]> (locks σ))
          (promises σ ++ [mkPromise ev (Waiting prevLock)])
          (log σ).

(** The handler of [.catch]: it logs and returns [null]. *)
Definition catch_ (o : settled) : settled :=
  match o with
  | Rejected _ => Fulfilled None
  | Fulfilled v => Fulfilled v
  end.

Definition settle (σ : State) (p : nat) (ev : Event) (o : settled)
    (seen : list obs) : State :=
  mkState (sessions σ) (heap σ) (files σ) (locks σ)
          (<[p := mkPromise ev (Settled o)]> (promises σ))
          (log σ ++ seen ++ [OSettle p o]).

(** The outcome of [prevLock], once it has settled. *)
Definition prev_outcome (σ : State) (prev : option nat) : option settled :=
  match prev with
  | None => Some (Fulfilled None)
  | Some q =>
      match promises σ !! q with
      | Some (mkPromise _ (Settled o)) => Some o
      | _ => None
      end
  end.

Definition expired (σ : State) (now maxAge : Z) (r : nat) : bool :=
  match heap σ !! r with
  | Some session => now - lastActivity session >? maxAge
  | None => false
  end.

(** [cleanExpiredSessions]: expired entries leave [this.sessions]. *)
Definition cleanExpiredSessions (σ : State) (now maxAge : Z) : State :=
  mkState (filter (λ kr, expired σ now maxAge kr.2 = false) (sessions σ))
          (heap σ) (files σ) (locks σ) (promises σ) (log σ).

(** What can happen next: an adapter calls [handleMessage]; the reaction
    of a promise whose predecessor has settled runs; the agent call of a
    suspended unit ends; the cleanup timer fires.  [now] is the reading
    of [Date.now()]. *)
Inductive action :=
  | Submit (ev : Event)
  | Start (p : nat) (now : Z)
  | Resume (p : nat) (fo : FetchOutcome) (now : Z)
           (write_error : option jsstring)
  | Sweep (now maxAge : Z).

(** One action; [None] when it cannot happen in [σ]. *)
Definition step (a : action) (σ : State) : option State :=
  match a with
  | Submit ev => Some (handleMessage σ ev)
  | Start p now =>
      match promises σ !! p with
      | Some (mkPromise ev (Waiting prev)) =>
          match prev_outcome σ prev with
          | None => None
          | Some (Rejected msg) =>
              (* [then] passes the rejection on, [catch] handles it *)
              Some (settle σ p ev (catch_ (Rejected msg)) [OSkip p])
          | Some (Fulfilled _) =>
              match _processMessage_begin σ ev now with
              | None => None
              | Some (σ1, Done o) => Some (settle σ1 p ev (catch_ o) [ORun p])
              | Some (σ1, Await r) =>
                  Some (mkState (sessions σ1) (heap σ1) (files σ1) (locks σ1)
                          (<[p := mkPromise ev (Running r)]> (promises σ1))
                          (log σ1 ++ [ORun p]))
              end
          end
      | _ => None
      end
  | Resume p fo now write_error =>
      match promises σ !! p with
      | Some (mkPromise ev (Running r)) =>
          match _processMessage_resume σ ev r fo now write_error with
          | None => None
          | Some (σ1, o) => Some (settle σ1 p ev (catch_ o) [])
          end
      | _ => None
      end
  | Sweep now maxAge => Some (cleanExpiredSessions σ now maxAge)
  end.

Fixpoint run (acts : list action) (σ : State) : option State :=
  match acts with
  | [] => Some σ
  | a :: acts' =>
      match step a σ with
      | Some σ' => run acts' σ'
      | None => None
      end
  end.

(** The states the gateway gets into, started on a disk [disk]. *)
Inductive reachable (disk : gmap (list N) FileContent) : State → Prop :=
  | reachable_init : reachable disk (init disk)
  | reachable_step a σ σ' :
      reachable disk σ → step a σ = Some σ' → reachable disk σ'.
End WithConfig.

End Gateway.

(** ** Invariants of the gateway *)

Module Invariants.
Import Gateway.

Open Scope nat_scope.

(** [prev] is the last promise before index [n] made for the key [K]. *)
Definition last_before (σ : State) (K : jsstring) (n : nat)
    (prev : option nat) : Prop :=
  match prev with
  | None => ∀ q Q, q < n → promises σ !! q = Some Q → key Q ≠ K
  | Some q0 =>
      q0 < n
      ∧ (∃ Q0, promises σ !! q0 = Some Q0 ∧ key Q0 = K)
      ∧ ∀ q Q, q0 < q → q < n → promises σ !! q = Some Q → key Q ≠ K
  end.

(** The promise chains: each promise waits for the one made before it
    for the same key, [this.locks] holds the last one of each key, a
    promise leaves [Waiting] only after all earlier ones of its key have
    settled, and no promise is rejected. *)
Record chain_inv (σ : State) : Prop := {
  chain_prev : ∀ p ev prev,
    promises σ !! p = Some (mkPromise ev (Waiting prev)) →
    last_before σ (sessionKey_of ev) p prev;
  chain_lock : ∀ K,
    last_before σ K (length (promises σ)) (locks σ !! K);
  chain_fifo : ∀ p q P Q,
    p < q → promises σ !! p = Some P → promises σ !! q = Some Q →
    key P = key Q → (∀ prev, state Q ≠ Waiting prev) →
    ∃ o, state P = Settled o;
  chain_fulfilled : ∀ p P msg,
    promises σ !! p = Some P → state P ≠ Settled (Rejected msg)
}.

(** The promises that have settled, in the order in which they did. *)
Definition settled_seq (l : list obs) : list nat :=
  omap (λ o, match o with OSettle p _ => Some p | _ => None end) l.

(** The log tells the truth about the promises. *)
Record log_inv (σ : State) : Prop := {
  log_settled : ∀ p o,
    OSettle p o ∈ log σ ↔ ∃ ev, promises σ !! p = Some (mkPromise ev (Settled o));
  log_ran : ∀ p P,
    promises σ !! p = Some P → (∀ prev, state P ≠ Waiting prev) →
    ORun p ∈ log σ;
  log_no_skip : ∀ p, OSkip p ∉ log σ;
  log_order : ∀ i j p q P Q,
    i < j → settled_seq (log σ) !! i = Some p →
    settled_seq (log σ) !! j = Some q →
    promises σ !! p = Some P → promises σ !! q = Some Q → key P = key Q →
    p < q
}.

(** Session objects: references point into the heap, and a session object
    is shared only by the map entry of its key and the unit of work of
    that key that is suspended on it. *)
Record heap_inv (σ : State) : Prop := {
  sess_valid : ∀ K r, sessions σ !! K = Some r → r < length (heap σ);
  run_valid : ∀ p ev r,
    promises σ !! p = Some (mkPromise ev (Running r)) → r < length (heap σ);
  sess_owner : ∀ K r p ev,
    sessions σ !! K = Some r →
    promises σ !! p = Some (mkPromise ev (Running r)) →
    sessionKey_of ev = K;
  run_owner : ∀ p q ev ev' r,
    promises σ !! p = Some (mkPromise ev (Running r)) →
    promises σ !! q = Some (mkPromise ev' (Running r)) →
    sessionKey_of ev = sessionKey_of ev';
  sess_inj : ∀ K K' r,
    sessions σ !! K = Some r → sessions σ !! K' = Some r → K = K'
}.

(** The history ends with the inbound turn of the event. *)
Definition ends_with_inbound (ev : Event) (s : Session) : Prop :=
  ∃ h t, history s = h ++ [t] ∧ role t = js "user" ∧ content t = ev_text ev.

(** [maxHistory] is missing or not negative. *)
Definition config_ok (config : Config) : Prop :=
  match maxHistory config with
  | Some m => (0 ≤ m)%Z
  | None => True
  end.

(** A file is as it was on the disk the gateway started on, or it holds
    at most [bound] turns. *)
Definition file_bounded (disk : gmap (list N) FileContent) (bound : nat)
    (σ : State) (path : jsstring) : Prop :=
  files σ !! path = disk !! path
  ∨ ∃ h, files σ !! path = Some (Lines h) ∧ length h ≤ bound.

(** What the suspended units of work hold, and what is on disk. *)
Record data_inv (config : Config) (disk : gmap (list N) FileContent)
    (σ : State) : Prop := {
  run_inbound : ∀ p ev r,
    promises σ !! p = Some (mkPromise ev (Running r)) →
    ∃ s, heap σ !! r = Some s ∧ ends_with_inbound ev s;
  run_bound : config_ok config → ∀ p ev r s,
    promises σ !! p = Some (mkPromise ev (Running r)) →
    heap σ !! r = Some s →
    (Z.of_nat (length (history s)) ≤ effective_maxHistory config)%Z;
  files_bound : config_ok config → ∀ path,
    file_bounded disk (S (Z.to_nat (effective_maxHistory config))) σ path
}.

(** All promises below [n] have settled. *)
Definition settled_below (σ : State) (n : nat) : Prop :=
  ∀ p, p < n → ∃ ev o, promises σ !! p = Some (mkPromise ev (Settled o)).

(** What one action does to a promise: the reaction runs the unit of work
    to its end, or [then] skips it after a rejection, or the unit is
    suspended at the agent call, or the agent call ends. *)
Inductive transition (σ : State) (p : nat) : status → status → list obs → Prop :=
  | start_done prev v0 v :
      prev_outcome σ prev = Some (Fulfilled v0) →
      transition σ p (Waiting prev) (Settled (Fulfilled v))
                 [ORun p; OSettle p (Fulfilled v)]
  | start_skip prev msg :
      prev_outcome σ prev = Some (Rejected msg) →
      transition σ p (Waiting prev) (Settled (Fulfilled None))
                 [OSkip p; OSettle p (Fulfilled None)]
  | start_await prev v0 r :
      prev_outcome σ prev = Some (Fulfilled v0) →
      transition σ p (Waiting prev) (Running r) [ORun p]
  | resume_done r v :
      transition σ p (Running r) (Settled (Fulfilled v))
                 [OSettle p (Fulfilled v)].

(** What one action does to the sessions, the heap and the files. *)
Inductive effect (config : Config) (σ σ' : State) : Prop :=
  | effect_submit ev :
      σ' = handleMessage σ ev → effect config σ σ'
  | effect_skip p ev prev msg :
      promises σ !! p = Some (mkPromise ev (Waiting prev)) →
      prev_outcome σ prev = Some (Rejected msg) →
      σ' = settle σ p ev (Fulfilled None) [OSkip p] →
      effect config σ σ'
  | effect_begin p ev prev o now σ1 r s st' :
      promises σ !! p = Some (mkPromise ev (Waiting prev)) →
      prev_outcome σ prev = Some o →
      _loadSession σ (sessionKey_of ev) now = (σ1, r) →
      heap σ1 !! r = Some s →
      st' = Settled (Fulfilled None)
      ∨ (st' = Running r
         ∧ truncate config (history s ++ [user_turn ev now]) ≠ []
         ∧ resolve_endpoint config (ev_channel ev) ≠ []) →
      sessions σ' = sessions σ1 →
      heap σ' = <[r := mkSession (truncate config (history s ++ [user_turn ev now]))
                          (session_conversationId s) (lastActivity s)]> (heap σ1) →
      files σ' = files σ →
      promises σ' = <[p := mkPromise ev st']> (promises σ) →
      effect config σ σ'
  | effect_no_reply p ev r :
      promises σ !! p = Some (mkPromise ev (Running r)) →
      sessions σ' = sessions σ → heap σ' = heap σ → files σ' = files σ →
      promises σ' = <[p := mkPromise ev (Settled (Fulfilled None))]> (promises σ) →
      effect config σ σ'
  | effect_reply p ev r s text cid now o :
      promises σ !! p = Some (mkPromise ev (Running r)) →
      heap σ !! r = Some s →
      sessions σ' = <[sessionKey_of ev := r]> (sessions σ) →
      heap σ' = <[r := mkSession (history s ++ [assistant_turn text now]) cid now]>
                  (heap σ) →
      files σ' = files σ
      ∨ files σ' = <[_sessionPath (sessionKey_of ev) :=
                       Lines (history s ++ [assistant_turn text now])]> (files σ) →
      promises σ' = <[p := mkPromise ev (Settled o)]> (promises σ) →
      effect config σ σ'
  | effect_sweep now maxAge :
      σ' = cleanExpiredSessions σ now maxAge → effect config σ σ'.

(** The agent call of a unit ends without a reply that can be used. *)
Definition no_reply (fo : FetchOutcome) : Prop :=
  match _callAgent_finish fo with
  | Some agentResponse => truthy (agent_reply agentResponse) = false
  | None => True
  end.

(** The unit of work fails: no usable reply, or the session file cannot be
    written. *)
Definition unit_fails (fo : FetchOutcome) (write_error : option jsstring) : Prop :=
  no_reply fo ∨ write_error ≠ None.

(** The actions [acts] are reactions and ends of agent calls only, and
    the agent call of the promise [p] ends as [answer p] and
    [write_error p] say. *)
Definition follows (answer : nat → FetchOutcome)
    (write_error : nat → option jsstring) (acts : list action) : Prop :=
  Forall (λ a, match a with
               | Start _ _ => True
               | Resume p fo _ w => fo = answer p ∧ w = write_error p
               | Submit _ | Sweep _ _ => False
               end) acts.

(** The turns of the session file of a key, if it has one that parses. *)
Definition persisted (σ : State) (sessionKey : jsstring) : option (list Turn) :=
  match files σ !! _sessionPath sessionKey with
  | Some (Lines h) => Some h
  | _ => None
  end.

End Invariants.

(** ** Example runs *)

Module Examples.
Import Permissions Gateway.

Open Scope Z_scope.

(** A bash request with the given command. *)
Definition bash_input (command : string) : jsobject :=
  [(js "command", JStr (js command))].

Definition kill_input : jsobject := [(js "force", JBool true)].

Definition kill_key : jsstring :=
  js "kill_process:" ++ Json.stringify kill_input.

(** The default configuration with an endpoint, and one with
    [maxHistory = 3]. *)
Definition cfg : Config := mkConfig (js "http://agent") None ∅.
Definition cfg3 : Config := mkConfig (js "http://agent") (Some 3) ∅.

(** A message on the web chat, in the session [webchat:web_ann]. *)
Definition msg (text : string) : Event :=
  mkEvent (js "webchat") (js "web_ann") (js "ann") (js text) None.

(** A message in another session. *)
Definition other_msg (text : string) : Event :=
  mkEvent (js "telegram") (js "42") (js "bob") (js text) None.

Definition ann : jsstring := js "webchat:web_ann".

(** The agent answers with a reply, and with a reply and a conversation
    id. *)
Definition answer (text : string) : FetchOutcome :=
  Json (mkAgentData (Some (js text)) None None None None).

Definition answer_with_id (text id : string) : FetchOutcome :=
  Json (mkAgentData (Some (js text)) None None (Some (js id)) None).

(** The state after the actions [acts] on an empty disk (the initial
    state when they cannot all happen). *)
Definition state_after (config : Config) (acts : list action) : State :=
  match run config acts (init ∅) with
  | Some σ => σ
  | None => init ∅
  end.

(** Message [p] is submitted, processed and answered. *)
Definition turn (p : nat) (text answer_text : string) : list action :=
  [Submit (msg text); Start p 0; Resume p (answer answer_text) 0 None].

Definition five_turns : list action :=
  turn 0 "m1" "r1" ++ turn 1 "m2" "r2" ++ turn 2 "m3" "r3"
  ++ turn 3 "m4" "r4" ++ turn 4 "m5" "r5".

(** Two messages of one session and one of another are submitted; the
    first is at its agent call. *)
Definition two_queued : list action :=
  [Submit (msg "m1"); Submit (msg "m2"); Submit (other_msg "x1"); Start 0 0].

(** A message is submitted and its agent call fails. *)
Definition failed_turn : list action :=
  [Submit (msg "m1"); Start 0 0; Resume 0 NotOk 0 None].

(** A message is answered with a conversation id. *)
Definition turn_with_id : list action :=
  [Submit (msg "m1"); Start 0 0; Resume 0 (answer_with_id "r1" "T1") 0 None].

(** A session file with two assistant turns that carry a conversation
    id. *)
Definition file_with_ids : list Turn :=
  [ mkTurn (js "user") (js "m1") None 1 None None;
    mkTurn (js "assistant") (js "r1") None 2 None (Some (js "T1"));
    mkTurn (js "user") (js "m2") None 3 None None;
    mkTurn (js "assistant") (js "r2") None 4 None (Some (js "T2")) ].

End Examples.

(** ** The request to the agent ([_callAgent]) *)

Module Request.
Import Gateway.

Open Scope Z_scope.

(** The JSON body of the request. *)
Record Body := mkBody {
  body_message : jsstring;
  body_platform : jsstring;
  body_chatId : jsstring;
  body_chatName : jsstring;
  body_sender : jsstring;
  body_conversationId : option jsstring;
  body_history : list (jsstring * jsstring)
}.

(** [x || null] on a string that may be missing. *)
Definition or_null (o : option jsstring) : option jsstring :=
  if truthy o then o else None.

(** The body that [_callAgent] builds from the context that
    [_processMessage] hands it for the event [ev], whose [chatName] is
    [chatName], and the session [session].  [None]: the history is empty
    and reading the content of its last turn throws. *)
Definition _callAgent_body (ev : Event) (chatName : option jsstring)
    (session : Session) : option Body :=
  match last (history session) with
  | None => None
  | Some t =>
      Some (mkBody (content t) (ev_channel ev) (ev_chatId ev)
              (match chatName with
               | Some (c :: n) => c :: n
               | _ => ev_sender ev
               end)
              (ev_sender ev)
              (or_null (session_conversationId session))
              (map (λ h, (role h, content h)) (slice (-10) (history session))))
  end.

(** [s.endsWith(suffix)]. *)
Definition ends_with (s suffix : jsstring) : bool :=
  str_eqb (drop (length s - length suffix) s) suffix.

(** The address of the request. *)
Definition _callAgent_url (endpoint : jsstring) : jsstring :=
  if ends_with endpoint (js "/") then endpoint ++ js "?route=chat"
  else endpoint ++ js "/?route=chat".

(** No endpoint can be resolved, whatever the channel. *)
Definition no_endpoint (config : Config) : Prop :=
  endpoint config = []
  ∧ ∀ channel e, channels config !! channel = Some e → e = [].

(** The history that [_loadSession] reads from a session file. *)
Definition file_history (file : option FileContent) : list Turn :=
  match file with
  | Some (Lines h) => h
  | _ => []
  end.

End Request.

(** ** Replies in pieces ([splitMessage] of the Discord and Telegram
    channels) *)

Module Channels.

Open Scope Z_scope.

(** [s.lastIndexOf(c, i)] for a single character [c]: the last index not
    above [i] at which [s] has [c], or [-1]. *)
Fixpoint lastIndexOf (c : N) (s : jsstring) (i : nat) : Z :=
  match s !! i with
  | Some d =>
      if (d =? c)%N then Z.of_nat i
      else match i with O => -1 | S j => lastIndexOf c s j end
  | None => match i with O => -1 | S j => lastIndexOf c s j end
  end.

(** Where the loop of [splitMessage] cuts [remaining], which is longer
    than [maxLen]: at the last line feed up to [maxLen], unless that is in
    the first half. *)
Definition cut (maxLen : nat) (remaining : jsstring) : nat :=
  let splitAt := lastIndexOf 10 remaining maxLen in
  if 2 * splitAt <? Z.of_nat maxLen then maxLen else Z.to_nat splitAt.

(** The [while] loop of [splitMessage], run for at most [fuel] rounds;
    [None] when they do not end it. *)
Fixpoint split_loop (fuel : nat) (maxLen : nat) (remaining : jsstring)
    : option (list jsstring) :=
  match fuel with
  | O => None
  | S fuel' =>
      match remaining with
      | [] => Some []
      | _ =>
          if (length remaining <=? maxLen)%nat then Some [remaining]
          else
            let splitAt := cut maxLen remaining in
            match split_loop fuel' maxLen
                    (drop_while is_space (drop splitAt remaining)) with
            | Some chunks => Some (take splitAt remaining :: chunks)
            | None => None
            end
      end
  end.

(** [splitMessage].  A round that does not end the loop shortens
    [remaining] or leaves it as it is, and in the second case the loop
    never ends; so one round more than [text] is long is all the loop can
    take, and [None] stands for a call that does not return. *)
Definition splitMessage (text : jsstring) (maxLen : nat)
    : option (list jsstring) :=
  if (length text <=? maxLen)%nat then Some [text]
  else split_loop (S (length text)) maxLen text.

End Channels.

(** ** Memory files ([saveMemory], [searchMemory]) *)

Module Memory.
Import Request.

(** [s.startsWith(t)]. *)
Fixpoint starts_with (s t : jsstring) : bool :=
  match t, s with
  | [], _ => true
  | b :: t', a :: s' => (a =? b)%N && starts_with s' t'
  | _ :: _, [] => false
  end.

(** The first index at which [s] has [t], if any ([s.indexOf(t)]). *)
Fixpoint index_of (s t : jsstring) : option nat :=
  if starts_with s t then Some O
  else match s with
       | [] => None
       | _ :: s' => S <$> index_of s' t
       end.

(** [s.includes(t)]. *)
Definition has_substring (s t : jsstring) : bool :=
  match index_of s t with Some _ => true | None => false end.

(** [s.replace(t, '')] for a string [t]: the first occurrence goes. *)
Definition remove_first (s t : jsstring) : jsstring :=
  match index_of s t with
  | Some i => take i s ++ drop (i + length t) s
  | None => s
  end.

(** [s.split(/\s+/)]: the texts between the runs of white space, with an
    empty text before a run at the start and after one at the end.
    [current] is the text read since the last run, backwards, and [gap]
    says that the last character was white space. *)
Fixpoint split_go (s : jsstring) (current : jsstring) (gap : bool)
    : list jsstring :=
  match s with
  | [] => [rev current]
  | c :: s' =>
      if is_space c then
        if gap then split_go s' current true
        else rev current :: split_go s' [] true
      else split_go s' (c :: current) false
  end.

Definition split_ws (s : jsstring) : list jsstring := split_go s [] false.



(** An entry of the result of [searchMemory]. *)
Record Found := mkFound {
  found_key : jsstring;
  found_content : jsstring
}.

(** The files of [memoryDir], name and content as read with ['utf-8'];
    [None] when the directory does not exist. *)
Definition Dir : Type := option (gmap (list N) (list N)).



Section WithHost.
(** [String.prototype.toLowerCase], a function of the host. *)
Variable toLowerCase : jsstring → jsstring.

(** [words.some(w => content.toLowerCase().includes(w))]. *)
Definition matches (words : list jsstring) (content : jsstring) : bool :=
  existsb (has_substring (toLowerCase content)) words.

(** [searchMemory].  The files come in the order of [readdirSync], which
    [map_to_list] stands for. *)
Definition searchMemory (dir : Dir) (query : jsstring) : list Found :=
  let words := split_ws (toLowerCase query) in
  match dir with
  | None => []
  | Some files =>
      omap (λ '(file, content),
              if ends_with file (js ".md") && matches words content
              then Some (mkFound (remove_first file (js ".md")) content)
              else None)
           (map_to_list files)
  end.
End WithHost.

End Memory.

(** ** More sample data *)

Module Samples.
Import Permissions Gateway Examples.

Open Scope Z_scope.

(** A configuration without any endpoint, and one with a negative
    [maxHistory]. *)
Definition cfg_none : Config := mkConfig [] None ∅.
Definition cfg_neg : Config := mkConfig (js "http://agent") (Some (-2)) ∅.

(** A disk with the session file of [ann], and the gateway started on it
    after a message of that session has come in. *)
Definition disk_with_ids : gmap (list N) FileContent :=
  {[ _sessionPath ann := Lines file_with_ids ]}.

Definition cold_state : State :=
  match step cfg (Submit (msg "m3")) (init disk_with_ids) with
  | Some σ => σ
  | None => init disk_with_ids
  end.

(** A message comes in and its unit of work starts. *)
Definition one_started : list action := [Submit (msg "m1"); Start 0 0].

(** Two lines of text. *)
Definition two_lines : jsstring :=
  js "hello" ++ [10%N] ++ js "world this is a test".

(** [toLowerCase] on the letters A to Z. *)
Definition ascii_lower (s : jsstring) : jsstring :=
  map (λ c, if (65 <=? c)%N && (c <=? 90)%N then (c + 32)%N else c) s.

(** A memory directory with a note and a file that is not one. *)
Definition notes : gmap (list N) (list N) :=
  {[ js "todo.md" := js "Buy Milk"; js "draft.txt" := js "milk" ]}.

End Samples.

(** * Properties of the permission system *)

Module PolicyProofs.
Import Regex Permissions.

Lemma str_eqb_eq (s t : jsstring) : str_eqb s t = true ↔ s = t.
Proof.
  revert t. induction s as [|a s IH]; intros [|b t]; simpl; try (split; congruence).
  rewrite andb_true_iff, N.eqb_eq, IH. split.
  - intros [-> ->]. reflexivity.
  - intros [= -> ->]. split; reflexivity.
Qed.

Lemma str_eqb_refl (s : jsstring) : str_eqb s s = true.
Proof. apply str_eqb_eq. reflexivity. Qed.

Lemma str_eqb_neq (s t : jsstring) : s ≠ t → str_eqb s t = false.
Proof.
  intros Hne. destruct (str_eqb s t) eqn:E; [|reflexivity].
  apply str_eqb_eq in E. contradiction.
Qed.

Lemma includes_app (l1 l2 : list jsstring) (k : jsstring) :
  includes (l1 ++ l2) k = includes l1 k || includes l2 k.
Proof. unfold includes. apply existsb_app. Qed.

(** [push] adds its key and nothing else. *)
Lemma includes_push (l : list jsstring) (k k' : jsstring) :
  includes (push l k) k' = includes l k' || str_eqb k' k.
Proof.
  unfold push. destruct (includes l k) eqn:E.
  - destruct (str_eqb k' k) eqn:E'.
    + apply str_eqb_eq in E'. subst k'. rewrite E. reflexivity.
    + rewrite orb_false_r. reflexivity.
  - rewrite includes_app. simpl. rewrite orb_false_r. reflexivity.
Qed.

Lemma includes_push_same (l : list jsstring) (k : jsstring) :
  includes (push l k) k = true.
Proof. rewrite includes_push, str_eqb_refl. apply orb_true_r. Qed.

Lemma includes_push_other (l : list jsstring) (k k' : jsstring) :
  k' ≠ k → includes (push l k) k' = includes l k'.
Proof.
  intros Hne. rewrite includes_push, (str_eqb_neq _ _ Hne). apply orb_false_r.
Qed.

Lemma trim_nil : trim [] = [].
Proof. reflexivity. Qed.

Lemma not_dangerous_nil : is_dangerous [] = false.
Proof. vm_compute. reflexivity. Qed.

Lemma bash_not_listed :
  includes SAFE_TOOLS (js "bash") = false ∧ includes MODERATE_TOOLS (js "bash") = false.
Proof. split; vm_compute; reflexivity. Qed.

Section Facts.
Variable JSON_stringify : jsobject → jsstring.

(** [check] on the bash tool is [_checkBash] on the command. *)
Lemma check_bash (a : Approvals) (input : jsobject) :
  check JSON_stringify a (js "bash") input = _checkBash a (get input (js "command")).
Proof.
  unfold Permissions.check.
  destruct bash_not_listed as [-> ->]. rewrite str_eqb_refl. reflexivity.
Qed.

Lemma check_bash_string (a : Approvals) (input : jsobject) (cmd : jsstring) :
  get input (js "command") = JStr cmd → cmd ≠ [] →
  check JSON_stringify a (js "bash") input = Return (_checkBash_string a cmd).
Proof.
  intros Hc Hne. rewrite check_bash, Hc. unfold _checkBash. simpl.
  destruct cmd; [contradiction | reflexivity].
Qed.

(** A recorded denial is looked up only after the same key was not found
    among the allowed ones. *)
Lemma lookup_after_deny (a : Approvals) (key k : jsstring) (x y z : verdict) :
  includes (allowed a) key = true →
  (if includes (allowed a) k then x
   else if includes (push (denied a) key) k then y else z)
  = (if includes (allowed a) k then x
     else if includes (denied a) k then y else z).
Proof.
  intros Hin. destruct (includes (allowed a) k) eqn:E; [reflexivity|].
  rewrite includes_push_other; [reflexivity|].
  intros ->. congruence.
Qed.

Lemma _checkApproval_after_deny (a : Approvals) (key : jsstring) tool input :
  includes (allowed a) key = true →
  _checkApproval JSON_stringify (mkApprovals (allowed a) (push (denied a) key)) tool input
  = _checkApproval JSON_stringify a tool input.
Proof.
  intros Hin. unfold Permissions._checkApproval. simpl.
  apply lookup_after_deny, Hin.
Qed.

Lemma _checkBash_string_after_deny (a : Approvals) (key cmd : jsstring) :
  includes (allowed a) key = true →
  _checkBash_string (mkApprovals (allowed a) (push (denied a) key)) cmd
  = _checkBash_string a cmd.
Proof.
  intros Hin. unfold _checkBash_string. simpl.
  repeat match goal with
         | |- (if ?b then _ else _) = (if ?b then _ else _) =>
             destruct b eqn:?; try reflexivity
         end.
  all: rewrite includes_push_other in *; try congruence.
  all: intros ->; congruence.
Qed.

(** C7 (amended).  A bash command that matches a danger pattern and is
    not caught by the safe-command list before, with no decision recorded
    for it, gets needs_approval.  Once [approve] has recorded an allow
    decision for it, the same request is allowed, provided the command
    has no white space around it; and a request for a dangerous command
    with another trimmed text, itself without a recorded decision, still
    gets needs_approval. *)
Theorem bash_danger_decision (a : Approvals) (input : jsobject)
    (cmd : jsstring) :
  get input (js "command") = JStr cmd →
  is_dangerous (trim cmd) = true →
  includes SAFE_COMMANDS (split_ws_first (trim cmd)) = false →
  includes SAFE_COMMANDS (trim cmd) = false →
  includes (allowed a) (js "bash:" ++ trim cmd) = false →
  includes (denied a) (js "bash:" ++ trim cmd) = false →
  check JSON_stringify a (js "bash") input = Return NeedsApproval
  ∧ (trim cmd = cmd →
     check JSON_stringify (approve JSON_stringify a (js "bash") input true) (js "bash") input
     = Return Allowed)
  ∧ (∀ (input' : jsobject) (cmd' : jsstring),
       get input' (js "command") = JStr cmd' →
       trim cmd' ≠ cmd →
       is_dangerous (trim cmd') = true →
       includes SAFE_COMMANDS (split_ws_first (trim cmd')) = false →
       includes SAFE_COMMANDS (trim cmd') = false →
       includes (allowed a) (js "bash:" ++ trim cmd') = false →
       includes (denied a) (js "bash:" ++ trim cmd') = false →
       check JSON_stringify (approve JSON_stringify a (js "bash") input true) (js "bash") input'
       = Return NeedsApproval).
Proof.
  intros Hc Hd Hs1 Hs2 Ha Hn.
  assert (Hne : cmd ≠ []).
  { intros ->. rewrite trim_nil, not_dangerous_nil in Hd. discriminate. }
  assert (Hkey : approve_key JSON_stringify (js "bash") input = js "bash:" ++ cmd).
  { unfold Permissions.approve_key. rewrite str_eqb_refl, Hc. reflexivity. }
  split; [|split].
  - rewrite (check_bash_string _ _ _ Hc Hne). unfold _checkBash_string.
    cbv zeta. rewrite Hs1, Hs2, Hd, Ha, Hn. reflexivity.
  - intros Ht. rewrite (check_bash_string _ _ _ Hc Hne).
    unfold _checkBash_string, Permissions.approve. cbv zeta.
    rewrite Hkey, Ht in *. rewrite Hs1, Hs2, Hd. cbn [allowed denied].
    rewrite includes_push_same. reflexivity.
  - intros input' cmd' Hc' Hdiff Hd' Hs1' Hs2' Ha' Hn'.
    assert (Hne' : cmd' ≠ []).
    { intros ->. rewrite trim_nil, not_dangerous_nil in Hd'. discriminate. }
    rewrite (check_bash_string _ _ _ Hc' Hne').
    unfold _checkBash_string, Permissions.approve. cbv zeta.
    rewrite Hkey, Hs1', Hs2', Hd'. cbn [allowed denied].
    rewrite includes_push_other, Ha', Hn'; [reflexivity|].
    intros E. apply app_inv_head in E. contradiction.
Qed.

(** C8.  [delete_file] is not in [MODERATE_TOOLS], so [check] never gets
    to the branch that looks at [input.recursive]: with or without the
    flag the request goes to the recorded decisions, and without one it
    gets needs_approval. *)
Theorem delete_file_always_needs_decision (a : Approvals) (input : jsobject) :
  check JSON_stringify a (js "delete_file") input
  = Return (_checkApproval JSON_stringify a (js "delete_file") input)
  ∧ check JSON_stringify no_approvals (js "delete_file") input = Return NeedsApproval.
Proof.
  assert (H : ∀ a', check JSON_stringify a' (js "delete_file") input
                    = Return (_checkApproval JSON_stringify a' (js "delete_file") input)).
  { intros a'. unfold Permissions.check.
    replace (includes SAFE_TOOLS (js "delete_file")) with false
      by (vm_compute; reflexivity).
    replace (includes MODERATE_TOOLS (js "delete_file")) with false
      by (vm_compute; reflexivity).
    replace (str_eqb (js "delete_file") (js "bash")) with false
      by (vm_compute; reflexivity).
    destruct (str_eqb (js "delete_file") (js "kill_process")); reflexivity. }
  split; [apply H|]. rewrite H. reflexivity.
Qed.

(** C9.  The allowed keys are looked up before the denied ones: a tool
    call whose key is among the allowed ones is allowed whatever the
    denied ones are (for bash, when the key of its trimmed command is),
    and recording a denial under a key that is already allowed changes
    the answer to no request. *)
Theorem allowed_before_denied (a : Approvals) :
  (∀ (toolName : jsstring) (input : jsobject),
     toolName ≠ js "bash" →
     includes (allowed a) (toolName ++ js ":" ++ JSON_stringify input) = true →
     check JSON_stringify a toolName input = Return Allowed)
  ∧ (∀ (input : jsobject) (cmd : jsstring),
       get input (js "command") = JStr cmd → cmd ≠ [] →
       includes (allowed a) (js "bash:" ++ trim cmd) = true →
       check JSON_stringify a (js "bash") input = Return Allowed)
  ∧ (∀ (toolName : jsstring) (input : jsobject),
       includes (allowed a) (approve_key JSON_stringify toolName input) = true →
       ∀ (toolName' : jsstring) (input' : jsobject),
         check JSON_stringify (approve JSON_stringify a toolName input false) toolName' input'
         = check JSON_stringify a toolName' input').
Proof.
  split; [|split].
  - intros tool input Hnb Hin. unfold Permissions.check, Permissions._checkApproval.
    rewrite Hin, (str_eqb_neq _ _ Hnb).
    repeat match goal with
           | |- context [if ?b then _ else _] => destruct b
           end; reflexivity.
  - intros input cmd Hc Hne Hin.
    rewrite (check_bash_string _ _ _ Hc Hne). unfold _checkBash_string.
    cbv zeta. rewrite Hin.
    repeat match goal with
           | |- context [if ?b then _ else _] => destruct b
           end; reflexivity.
  - intros tool input Hin tool' input'.
    unfold Permissions.approve. fold (approve_key JSON_stringify tool input).
    set (key := approve_key JSON_stringify tool input) in *.
    unfold Permissions.check.
    rewrite !(_checkApproval_after_deny _ _ _ _ Hin).
    unfold _checkBash.
    destruct (get input' (js "command")) as [| |b|s]; try reflexivity.
    rewrite (_checkBash_string_after_deny _ _ _ Hin). reflexivity.
Qed.

(** C10.  A bash request whose command is missing or the empty string is
    denied, whatever decisions are recorded. *)
Theorem bash_empty_command_denied (a : Approvals) (input : jsobject) :
  get input (js "command") = JUndefined ∨ get input (js "command") = JStr [] →
  check JSON_stringify a (js "bash") input = Return Denied.
Proof.
  intros [H|H]; rewrite check_bash, H; reflexivity.
Qed.
End Facts.

Import Examples.

(** With the real [JSON.stringify]: [rm -rf /tmp/x] needs a decision, is
    allowed once approved, and [rm -rf /tmp/y] still needs one. *)
Lemma bash_danger_decision_witness :
  check Json.stringify no_approvals (js "bash") (bash_input "rm -rf /tmp/x")
  = Return NeedsApproval
  ∧ check Json.stringify
      (approve Json.stringify no_approvals (js "bash")
         (bash_input "rm -rf /tmp/x") true)
      (js "bash") (bash_input "rm -rf /tmp/x")
    = Return Allowed
  ∧ check Json.stringify
      (approve Json.stringify no_approvals (js "bash")
         (bash_input "rm -rf /tmp/x") true)
      (js "bash") (bash_input "rm -rf /tmp/y")
    = Return NeedsApproval.
Proof.
  destruct (bash_danger_decision Json.stringify no_approvals
              (bash_input "rm -rf /tmp/x") (js "rm -rf /tmp/x"))
    as (H1 & H2 & H3); try (vm_compute; reflexivity).
  split; [exact H1|]. split; [apply H2; vm_compute; reflexivity|].
  apply (H3 (bash_input "rm -rf /tmp/y") (js "rm -rf /tmp/y"));
    try (vm_compute; reflexivity).
  vm_compute. discriminate.
Defined.

(** C7, as stated, fails: this command matches the pattern of [rm -rf],
    and it is allowed on the first request, because its first word is on
    the safe-command list, which [_checkBash] looks at first. *)
Lemma bash_danger_behind_safe_command :
  is_dangerous (trim (js "echo ok && rm -rf /tmp/x")) = true
  ∧ check Json.stringify no_approvals (js "bash")
      (bash_input "echo ok && rm -rf /tmp/x")
    = Return Allowed.
Proof. split; vm_compute; reflexivity. Qed.

(** [approve] records the command as it was given and [_checkBash] looks
    up the trimmed one: the approval of a command with white space around
    it is not found again. *)
Example approve_untrimmed_not_found :
  check Json.stringify
    (approve Json.stringify no_approvals (js "bash")
       (bash_input " rm -rf /tmp/x") true)
    (js "bash") (bash_input " rm -rf /tmp/x")
  = Return NeedsApproval.
Proof. vm_compute. reflexivity. Qed.

(** C8 at a request without the recursive flag. *)
Example delete_file_plain_needs_approval :
  check Json.stringify no_approvals (js "delete_file")
    [(js "path", JStr (js "/tmp/x"))]
  = Return NeedsApproval.
Proof. vm_compute. reflexivity. Qed.

(** A key in both arrays: the request is allowed; and a denial recorded
    over an approval changes nothing. *)
Lemma allowed_before_denied_witness :
  check Json.stringify (mkApprovals [kill_key] [kill_key])
    (js "kill_process") kill_input
  = Return Allowed
  ∧ check Json.stringify (mkApprovals [js "bash:rm -rf /tmp/x"] [js "bash:rm -rf /tmp/x"])
      (js "bash") (bash_input "rm -rf /tmp/x")
    = Return Allowed
  ∧ check Json.stringify
      (approve Json.stringify (mkApprovals [kill_key] [])
         (js "kill_process") kill_input false)
      (js "kill_process") kill_input
    = check Json.stringify (mkApprovals [kill_key] [])
        (js "kill_process") kill_input.
Proof.
  split; [|split].
  - apply (proj1 (allowed_before_denied Json.stringify _)).
    + vm_compute. discriminate.
    + vm_compute. reflexivity.
  - apply (proj1 (proj2 (allowed_before_denied Json.stringify _))
             _ (js "rm -rf /tmp/x")).
    + reflexivity.
    + discriminate.
    + vm_compute. reflexivity.
  - apply (proj2 (proj2 (allowed_before_denied Json.stringify _))).
    vm_compute. reflexivity.
Defined.

(** A request without a command is denied even when its key was
    approved. *)
Lemma bash_empty_command_denied_witness :
  check Json.stringify (mkApprovals [js "bash:undefined"; js "bash:"] [])
    (js "bash") []
  = Return Denied.
Proof.
  apply bash_empty_command_denied. left. reflexivity.
Defined.

End PolicyProofs.


(** * Properties of the gateway *)

Module GatewayProofs.
Import Gateway Invariants.

Open Scope nat_scope.

Section Steps.
Variable config : Config.

Lemma catch_fulfilled (o : settled) : ∃ v, catch_ o = Fulfilled v.
Proof. destruct o; simpl; eauto. Qed.

(** [_loadSession] returns the object of the key, making one if the key
    has none. *)
Lemma _loadSession_spec (σ σ1 : State) (K : jsstring) (now : Z) (r : nat) :
  _loadSession σ K now = (σ1, r) →
  (sessions σ !! K = Some r ∧ σ1 = σ)
  ∨ (sessions σ !! K = None ∧ r = length (heap σ)
     ∧ σ1 = mkState (<[K := r]> (sessions σ))
              (heap σ ++ [session_from_disk (files σ !! _sessionPath K) now])
              (files σ) (locks σ) (promises σ) (log σ)).
Proof.
  unfold _loadSession. destruct (sessions σ !! K) as [r'|] eqn:E.
  - intros [= <- <-]. left. split; reflexivity.
  - intros [= <- <-]. right. repeat split; reflexivity.
Qed.

(** The first half of [_processMessage]. *)
Lemma _processMessage_begin_spec (σ σ2 : State) (ev : Event) (now : Z)
    (pr : proc) :
  _processMessage_begin config σ ev now = Some (σ2, pr) →
  ∃ σ1 r s,
    _loadSession σ (sessionKey_of ev) now = (σ1, r)
    ∧ heap σ1 !! r = Some s
    ∧ σ2 = set_heap σ1
             (<[r := mkSession (truncate config (history s ++ [user_turn ev now]))
                       (session_conversationId s) (lastActivity s)]> (heap σ1))
    ∧ (pr = Done (Fulfilled None)
       ∨ (pr = Await r
          ∧ truncate config (history s ++ [user_turn ev now]) ≠ []
          ∧ resolve_endpoint config (ev_channel ev) ≠ [])).
Proof.
  unfold _processMessage_begin.
  destruct (_loadSession σ (sessionKey_of ev) now) as [σ1 r] eqn:EL.
  destruct (heap σ1 !! r) as [s|] eqn:EH; [|discriminate].
  intros H. exists σ1, r, s. split; [reflexivity|]. split; [exact EH|].
  destruct (resolve_endpoint config (ev_channel ev)) as [|c e];
    [injection H as <- <-; split; [reflexivity | left; reflexivity]|].
  destruct (truncate config (history s ++ [user_turn ev now])) as [|t h] eqn:ET;
    injection H as <- <-.
  - split; [reflexivity | left; reflexivity].
  - split; [reflexivity|]. right. repeat split; discriminate.
Qed.

(** The second half of [_processMessage]: no reply and nothing changed,
    or the assistant turn is appended to the session, which is then
    written unless the write fails. *)
Lemma _processMessage_resume_spec (σ σ1 : State) (ev : Event) (r : nat)
    (fo : FetchOutcome) (now : Z) (w : option jsstring) (o : settled) :
  _processMessage_resume σ ev r fo now w = Some (σ1, o) →
  ∃ s, heap σ !! r = Some s
  ∧ ((σ1 = σ ∧ o = Fulfilled None)
     ∨ ∃ text cid,
         let s' := mkSession (history s ++ [assistant_turn text now]) cid now in
         sessions σ1 = <[sessionKey_of ev := r]> (sessions σ)
         ∧ heap σ1 = <[r := s']> (heap σ)
         ∧ locks σ1 = locks σ ∧ promises σ1 = promises σ ∧ log σ1 = log σ
         ∧ ((∃ msg, w = Some msg ∧ o = Rejected msg ∧ files σ1 = files σ)
            ∨ (w = None
               ∧ o = Fulfilled (Some (mkReply text (sessionKey_of ev)))
               ∧ files σ1 = <[_sessionPath (sessionKey_of ev) := Lines (history s')]>
                              (files σ)))).
Proof.
  unfold _processMessage_resume.
  destruct (heap σ !! r) as [s|]; [|discriminate].
  intros H. exists s. split; [reflexivity|].
  destruct (_callAgent_finish fo) as [resp|];
    [|injection H as <- <-; left; split; reflexivity].
  destruct (agent_reply resp) as [[|c text]|];
    try (injection H as <- <-; left; split; reflexivity).
  right. eexists (c :: text), _.
  destruct w as [msg|]; injection H as <- <-; simpl;
    repeat split; try reflexivity.
  - left. eauto.
  - right. repeat split; reflexivity.
Qed.

(** What one action does to the promises, the locks and the log. *)
Lemma step_control (a : action) (σ σ' : State) :
  step config a σ = Some σ' →
  (∃ ev, a = Submit ev ∧ σ' = handleMessage σ ev)
  ∨ (∃ p ev st st' seen,
       promises σ !! p = Some (mkPromise ev st)
       ∧ transition σ p st st' seen
       ∧ promises σ' = <[p := mkPromise ev st']> (promises σ)
       ∧ locks σ' = locks σ
       ∧ log σ' = log σ ++ seen)
  ∨ (promises σ' = promises σ ∧ locks σ' = locks σ ∧ log σ' = log σ
     ∧ ∃ now maxAge, a = Sweep now maxAge).
Proof.
  destruct a as [ev|p now|p fo now w|now maxAge]; simpl.
  - intros [= <-]. left. eauto.
  - destruct (promises σ !! p) as [[ev [prev|r|o]]|] eqn:EP; try discriminate.
    destruct (prev_outcome σ prev) as [[v0|msg]|] eqn:EO; try discriminate.
    + destruct (_processMessage_begin config σ ev now) as [[σ2 pr]|] eqn:EB;
        [|discriminate].
      apply _processMessage_begin_spec in EB
        as (σ1 & r & s & EL & _ & -> & Hpr).
      assert (Hsame : promises σ1 = promises σ ∧ locks σ1 = locks σ
                      ∧ log σ1 = log σ).
      { apply _loadSession_spec in EL as [[_ ->]|(_ & _ & ->)];
          repeat split; reflexivity. }
      destruct Hsame as (HP & HL & HG).
      destruct Hpr as [->|(-> & _ & _)]; intros [= <-]; right; left.
      * exists p, ev, (Waiting prev), (Settled (Fulfilled None)),
          [ORun p; OSettle p (Fulfilled None)].
        simpl. rewrite HP, HL, HG.
        repeat split; first [exact EP | reflexivity | econstructor; eassumption].
      * exists p, ev, (Waiting prev), (Running r), [ORun p].
        simpl. rewrite HP, HL, HG.
        repeat split; first [exact EP | reflexivity | econstructor; eassumption].
    + intros [= <-]. right; left.
      exists p, ev, (Waiting prev), (Settled (Fulfilled None)),
        [OSkip p; OSettle p (Fulfilled None)].
      simpl. repeat split; first [exact EP | reflexivity | econstructor; eassumption].
  - destruct (promises σ !! p) as [[ev [prev|r|o]]|] eqn:EP; try discriminate.
    destruct (_processMessage_resume σ ev r fo now w) as [[σ1 o]|] eqn:ER;
      [|discriminate].
    intros [= <-]. right; left.
    destruct (catch_fulfilled o) as [v Hv].
    exists p, ev, (Running r), (Settled (Fulfilled v)), [OSettle p (Fulfilled v)].
    apply _processMessage_resume_spec in ER as (s & _ & [[-> _]|Hr]).
    + simpl. rewrite Hv. repeat split; first [exact EP | reflexivity | constructor].
    + destruct Hr as (text & cid & _ & _ & HL & HP & HG & _).
      simpl. rewrite Hv, HP, HL, HG. repeat split; first [exact EP | reflexivity | constructor].
  - intros [= <-]. right; right. simpl. repeat split; eauto.
Qed.
(** ** The promise chains *)

Lemma last_before_ext (σ σ' : State) (K : jsstring) (n : nat)
    (prev : option nat) :
  (∀ q, q < n → key <$> promises σ' !! q = key <$> promises σ !! q) →
  last_before σ K n prev → last_before σ' K n prev.
Proof.
  intros Hk. assert (Hback : ∀ q Q', q < n → promises σ' !! q = Some Q' →
                       ∃ Q, promises σ !! q = Some Q ∧ key Q = key Q').
  { intros q Q' Hq HQ'. specialize (Hk q Hq). rewrite HQ' in Hk. simpl in Hk.
    destruct (promises σ !! q) as [Q|]; [|discriminate].
    injection Hk as Hk. eauto. }
  destruct prev as [q0|]; simpl.
  - intros (Hlt & (Q0 & HQ0 & HK0) & Hbetween). split; [exact Hlt|]. split.
    + specialize (Hk q0 Hlt). rewrite HQ0 in Hk. simpl in Hk.
      destruct (promises σ' !! q0) as [Q0'|]; [|discriminate].
      injection Hk as Hk. exists Q0'. split; [reflexivity | congruence].
    + intros q Q' H1 H2 HQ'. destruct (Hback q Q' H2 HQ') as (Q & HQ & Hkey).
      rewrite <- Hkey. eapply Hbetween; eassumption.
  - intros Hnone q Q' Hq HQ'. destruct (Hback q Q' Hq HQ') as (Q & HQ & Hkey).
    rewrite <- Hkey. eapply Hnone; eassumption.
Qed.

Lemma last_before_mono (σ : State) (K : jsstring) (n : nat) (prev : option nat) P :
  promises σ !! n = Some P → key P ≠ K →
  last_before σ K n prev → last_before σ K (S n) prev.
Proof.
  intros HP Hne. destruct prev as [q0|]; simpl.
  - intros (Hlt & HQ0 & Hb). split; [lia|]. split; [exact HQ0|].
    intros q Q H1 H2 HQ. destruct (decide (q = n)) as [->|].
    + congruence.
    + eapply Hb; [exact H1 | lia | exact HQ].
  - intros Hn q Q Hq HQ. destruct (decide (q = n)) as [->|].
    + congruence.
    + eapply Hn; [|exact HQ]. lia.
Qed.

(** A changed state of the promise [p] leaves all keys as they were. *)
Lemma update_keys (l : list Promise) (p : nat) (ev : Event) (st st' : status) :
  l !! p = Some (mkPromise ev st) →
  ∀ q, key <$> (<[p := mkPromise ev st']> l) !! q = key <$> l !! q.
Proof.
  intros HP q. destruct (decide (q = p)) as [->|Hne].
  - rewrite list_lookup_insert_eq by (eapply lookup_lt_Some; exact HP).
    rewrite HP. reflexivity.
  - rewrite list_lookup_insert_ne by congruence. reflexivity.
Qed.

Lemma update_lookup (l : list Promise) (p q : nat) (ev : Event)
    (st st' : status) (Q' : Promise) :
  l !! p = Some (mkPromise ev st) →
  (<[p := mkPromise ev st']> l) !! q = Some Q' →
  (q = p ∧ Q' = mkPromise ev st') ∨ (q ≠ p ∧ l !! q = Some Q').
Proof.
  intros HP HQ. apply list_lookup_insert_Some in HQ as [(-> & <- & _)|[Hne HQ]].
  - left. split; reflexivity.
  - right. split; [congruence | exact HQ].
Qed.

(** When the predecessor of a waiting promise has settled, every earlier
    promise of its key has. *)
Lemma earlier_settled (σ : State) (p : nat) (ev : Event) (prev : option nat)
    (o : settled) :
  chain_inv σ →
  promises σ !! p = Some (mkPromise ev (Waiting prev)) →
  prev_outcome σ prev = Some o →
  ∀ q Q, q < p → promises σ !! q = Some Q → key Q = sessionKey_of ev →
         ∃ o', state Q = Settled o'.
Proof.
  intros I HP HO q Q Hq HQ HK.
  pose proof (chain_prev σ I p ev prev HP) as HL.
  destruct prev as [q0|]; simpl in HL, HO.
  - destruct HL as (Hlt & (Q0 & HQ0 & HK0) & Hb).
    rewrite HQ0 in HO. destruct Q0 as [ev0 [?|?|o0]]; try discriminate.
    destruct (Nat.lt_trichotomy q q0) as [Hlt'|[->|Hgt]].
    + eapply (chain_fifo σ I q q0 Q); try eassumption.
      * congruence.
      * intros prev'. discriminate.
    + rewrite HQ0 in HQ. injection HQ as <-. eauto.
    + exfalso. eapply Hb; eassumption.
  - exfalso. eapply HL; eassumption.
Qed.

Lemma chain_inv_init (disk : gmap (list N) FileContent) : chain_inv (init disk).
Proof.
  split; simpl.
  - intros p ev prev H. discriminate.
  - intros K. rewrite lookup_empty. simpl. intros q Q Hq. lia.
  - intros p q P Q _ H. discriminate.
  - intros p P msg H. discriminate.
Qed.

Lemma chain_inv_step (a : action) (σ σ' : State) :
  chain_inv σ → step config a σ = Some σ' → chain_inv σ'.
Proof.
  intros I Hstep.
  apply step_control in Hstep
    as [(ev & _ & ->)
       |[(p & ev & st & st' & seen & HP & Htr & HP' & HL' & _)
        |(HP' & HL' & _)]].
  - (* handleMessage *)
    set (n := length (promises σ)).
    assert (Hold : ∀ q, q < n →
              key <$> promises (handleMessage σ ev) !! q = key <$> promises σ !! q).
    { intros q Hq. simpl. rewrite lookup_app_l by exact Hq. reflexivity. }
    assert (Hnew : promises (handleMessage σ ev) !! n
                   = Some (mkPromise ev (Waiting (locks σ !! sessionKey_of ev)))).
    { simpl. rewrite lookup_app_r by (unfold n; lia).
      replace (n - length (promises σ)) with 0 by (unfold n; lia). reflexivity. }
    split.
    + intros p ev' prev Hp. simpl in Hp.
      apply lookup_snoc_Some in Hp as [[Hlt Hp]|[-> Hp]].
      * eapply last_before_ext; [|eapply (chain_prev σ I); exact Hp].
        intros q Hq. apply Hold. unfold n. lia.
      * injection Hp as <- <-.
        eapply last_before_ext; [exact Hold | apply (chain_lock σ I)].
    + intros K. simpl. rewrite length_app. simpl.
      replace (length (promises σ) + 1) with (S n) by (unfold n; lia).
      destruct (decide (sessionKey_of ev = K)) as [<-|Hne].
      * rewrite lookup_insert_eq. simpl. split; [lia|]. split.
        -- eexists. split; [exact Hnew | reflexivity].
        -- intros q Q H1 H2. lia.
      * rewrite lookup_insert_ne by exact Hne.
        eapply last_before_mono; [exact Hnew | exact Hne |].
        eapply last_before_ext; [exact Hold | apply (chain_lock σ I)].
    + intros p q P Q Hpq HP HQ HK Hnw. simpl in HP, HQ.
      apply lookup_snoc_Some in HQ as [[Hq HQ]|[-> HQ]].
      * rewrite lookup_app_l in HP by lia.
        eapply (chain_fifo σ I p q P Q); eassumption.
      * subst Q. exfalso. eapply Hnw. reflexivity.
    + intros p P msg HP. simpl in HP.
      apply lookup_snoc_Some in HP as [[Hp HP]|[-> HP]].
      * eapply (chain_fulfilled σ I); exact HP.
      * subst P. discriminate.
  - (* the state of one promise changes *)
    assert (Hkeys : ∀ q, key <$> promises σ' !! q = key <$> promises σ !! q).
    { rewrite HP'. eapply update_keys. exact HP. }
    assert (Hearly : ∀ q Q, (∃ prev, st = Waiting prev) → q < p →
              promises σ !! q = Some Q → key Q = sessionKey_of ev →
              ∃ o', state Q = Settled o').
    { intros q Q [prev ->] Hq HQ HK.
      assert (∃ o, prev_outcome σ prev = Some o) as [o HO]
        by (inversion Htr; eauto).
      eapply earlier_settled; eassumption. }
    assert (Hnotw : ∀ prev, st' ≠ Waiting prev)
      by (intros prev; inversion Htr; discriminate).
    split.
    + intros q ev' prev Hq. rewrite HP' in Hq.
      eapply update_lookup in Hq as [[-> HQ]|[Hne Hq]]; [| |exact HP].
      * injection HQ as _ HQ. exfalso. eapply Hnotw. symmetry. exact HQ.
      * eapply last_before_ext; [|eapply (chain_prev σ I); exact Hq].
        intros q' _. apply Hkeys.
    + intros K. rewrite HL', HP', length_insert.
      eapply last_before_ext; [|apply (chain_lock σ I)].
      intros q _. apply Hkeys.
    + intros q1 q2 Q1 Q2 Hlt H1 H2 HK Hnw. rewrite HP' in H1, H2.
      eapply update_lookup in H1 as [[-> ->]|[Hne1 H1]]; [| |exact HP];
      eapply update_lookup in H2 as [[-> ->]|[Hne2 H2]]; try exact HP.
      * lia.
      * (* the changed promise is the earlier one *)
        simpl. inversion Htr; subst; eauto.
        exfalso.
        destruct (chain_fifo σ I p q2 _ Q2 Hlt HP H2 HK Hnw) as [o Ho].
        discriminate.
      * (* the changed promise is the later one *)
        destruct st as [prev|r|o].
        -- eapply Hearly; eauto.
        -- eapply (chain_fifo σ I q1 p Q1); try eassumption.
           intros prev. discriminate.
        -- inversion Htr.
      * eapply (chain_fifo σ I q1 q2 Q1 Q2); eassumption.
    + intros q Q msg Hq. rewrite HP' in Hq.
      eapply update_lookup in Hq as [[-> ->]|[Hne Hq]]; [| |exact HP].
      * simpl. inversion Htr; discriminate.
      * eapply (chain_fulfilled σ I); exact Hq.
  - (* cleanExpiredSessions *)
    destruct I as [I1 I2 I3 I4]. split.
    + intros p ev prev Hp. rewrite HP' in Hp.
      eapply last_before_ext; [|eapply I1; exact Hp].
      intros q _. rewrite HP'. reflexivity.
    + intros K. rewrite HP', HL'.
      eapply last_before_ext; [|apply I2].
      intros q _. rewrite HP'. reflexivity.
    + intros p q P Q. rewrite HP'. apply I3.
    + intros p P msg. rewrite HP'. apply I4.
Qed.
(** ** The log *)

Lemma in_settled_seq (l : list obs) (p : nat) :
  p ∈ settled_seq l ↔ ∃ o, OSettle p o ∈ l.
Proof.
  unfold settled_seq. rewrite list_elem_of_omap. split.
  - intros ([q|q|q o] & Hin & Heq); try discriminate.
    injection Heq as ->. eauto.
  - intros [o Hin]. exists (OSettle p o). split; [exact Hin | reflexivity].
Qed.

Lemma transition_not_rejected (σ : State) (p : nat) (st st' : status)
    (seen : list obs) :
  chain_inv σ → transition σ p st st' seen →
  (∀ q, OSkip q ∉ seen)
  ∧ (∀ q o, OSettle q o ∈ seen ↔ q = p ∧ st' = Settled o)
  ∧ ((∃ prev, st = Waiting prev) → ORun p ∈ seen)
  ∧ (∀ o, st ≠ Settled o) ∧ (∀ prev, st' ≠ Waiting prev)
  ∧ length (settled_seq seen) ≤ 1.
Proof.
  intros I Htr.
  assert (Hnr : ∀ prev msg, prev_outcome σ prev ≠ Some (Rejected msg)).
  { intros [q0|] msg; simpl; [|discriminate].
    destruct (promises σ !! q0) as [[ev0 [?|?|o0]]|] eqn:E; try discriminate.
    intros [= ->]. eapply (chain_fulfilled σ I); [exact E | reflexivity]. }
  inversion Htr as [prev v0 v HO|prev msg HO|prev v0 r HO|r v]; subst;
    try (exfalso; eapply Hnr; eassumption); clear Htr.
  all: split;
    [intros q; rewrite ?elem_of_cons, elem_of_nil; intros Hq;
     intuition discriminate|].
  all: split;
    [intros q o; rewrite ?elem_of_cons, elem_of_nil; split;
     [intros Hq; intuition (try discriminate);
      match goal with
      | E : OSettle _ _ = OSettle _ _ |- _ => injection E as -> ->
      end; reflexivity
     |intros [-> E]; try discriminate; injection E as <-; tauto]|].
  all: split;
    [intros [prev' E]; try discriminate; rewrite ?elem_of_cons; tauto|].
  all: split; [intros o; discriminate|].
  all: split; [intros prev'; discriminate | simpl; lia].
Qed.

Lemma log_inv_init (disk : gmap (list N) FileContent) : log_inv (init disk).
Proof.
  split; simpl.
  - intros p o. split; [intros H; inversion H | intros [ev H]; discriminate].
  - intros p P H. discriminate.
  - intros p H. inversion H.
  - intros i j p q P Q _ H. discriminate.
Qed.

Lemma log_inv_step (a : action) (σ σ' : State) :
  chain_inv σ → log_inv σ → step config a σ = Some σ' → log_inv σ'.
Proof.
  intros I G Hstep.
  apply step_control in Hstep
    as [(ev & _ & ->)
       |[(p & ev & st & st' & seen & HP & Htr & HP' & _ & HG')
        |(HP' & _ & HG' & _)]].
  - (* handleMessage *)
    assert (Hold : ∀ q Q, (∀ prev, state Q ≠ Waiting prev) →
              promises (handleMessage σ ev) !! q = Some Q → promises σ !! q = Some Q).
    { intros q Q Hnw HQ. simpl in HQ.
      apply lookup_snoc_Some in HQ as [[_ HQ]|[_ <-]]; [exact HQ|].
      exfalso. eapply Hnw. reflexivity. }
    split; simpl log.
    + intros p o. rewrite (log_settled σ G). split; intros [ev' H]; exists ev'.
      * simpl. apply lookup_app_l_Some. exact H.
      * apply Hold; [intros prev; discriminate | exact H].
    + intros p P HP Hnw. eapply (log_ran σ G); [|exact Hnw]. apply Hold; assumption.
    + apply (log_no_skip σ G).
    + intros i j p q P Q Hij Hi Hj HP HQ HK.
      assert (Hs : ∀ k x X, settled_seq (log σ) !! k = Some x →
                promises (handleMessage σ ev) !! x = Some X →
                promises σ !! x = Some X).
      { intros k x X Hk HX. apply list_elem_of_lookup_2, in_settled_seq in Hk as [o Ho].
        apply (log_settled σ G) in Ho as [ev' Ho]. simpl in HX.
        rewrite (lookup_app_l_Some _ _ _ _ Ho) in HX. congruence. }
      eapply (log_order σ G i j p q P Q); eauto.
  - (* the state of one promise changes *)
    destruct (transition_not_rejected σ p st st' seen I Htr)
      as (Hnoskip & Hsettle & Hrun & Hunsettled & Hnotw & Hone).
    assert (Hp_unsettled : ∀ o, OSettle p o ∉ log σ).
    { intros o Ho. apply (log_settled σ G) in Ho as [ev' Ho].
      rewrite HP in Ho. injection Ho as _ Ho. eapply Hunsettled. exact Ho. }
    split; rewrite ?HG'.
    + intros q o. rewrite elem_of_app, (log_settled σ G), Hsettle, HP'. split.
      * intros [[ev' H]|[-> ->]].
        -- exists ev'. rewrite list_lookup_insert_ne; [exact H|].
           intros ->. rewrite HP in H. injection H as _ H.
           eapply Hunsettled. exact H.
        -- exists ev. apply list_lookup_insert_eq. eapply lookup_lt_Some. exact HP.
      * intros [ev' H].
        eapply update_lookup in H as [[-> [= -> ->]]|[Hne H]]; [| |exact HP].
        -- right. split; reflexivity.
        -- left. eauto.
    + intros q Q HQ Hnw. rewrite HP' in HQ. rewrite elem_of_app.
      eapply update_lookup in HQ as [[-> ->]|[Hne HQ]]; [| |exact HP].
      * destruct st as [prev|r|o].
        -- right. apply Hrun. eauto.
        -- left. eapply (log_ran σ G); [exact HP|]. intros prev. discriminate.
        -- exfalso. eapply Hunsettled. reflexivity.
      * left. eapply (log_ran σ G); eassumption.
    + intros q. rewrite elem_of_app. intros [H|H].
      * eapply (log_no_skip σ G); exact H.
      * eapply Hnoskip; exact H.
    + intros i j x y X Y Hij Hi Hj HX HY HK.
      unfold settled_seq in Hi, Hj. rewrite omap_app in Hi, Hj.
      fold (settled_seq (log σ)) in Hi, Hj. fold (settled_seq seen) in Hi, Hj.
      assert (Hback : ∀ z Z, promises σ' !! z = Some Z →
                ∃ Z0, promises σ !! z = Some Z0 ∧ key Z0 = key Z).
      { intros z Z HZ. rewrite HP' in HZ.
        eapply update_lookup in HZ as [[-> ->]|[Hne HZ]]; [| |exact HP]; eauto. }
      destruct (Hback x X HX) as (X0 & HX0 & HKX).
      destruct (Hback y Y HY) as (Y0 & HY0 & HKY).
      apply lookup_app_Some in Hj as [Hj|[Hge Hj]].
      * rewrite lookup_app_l in Hi by (apply lookup_lt_Some in Hj; lia).
        eapply (log_order σ G i j x y X0 Y0); eauto. congruence.
      * assert (Hjl : j = length (settled_seq (log σ)))
          by (apply lookup_lt_Some in Hj; lia).
        rewrite lookup_app_l in Hi by lia.
        assert (Hy : y = p).
        { apply list_elem_of_lookup_2, in_settled_seq in Hj as [o Ho].
          apply Hsettle in Ho as [-> _]. reflexivity. }
        subst y.
        apply list_elem_of_lookup_2, in_settled_seq in Hi as [o Ho].
        apply (log_settled σ G) in Ho as [evx Hx].
        destruct (Nat.lt_trichotomy x p) as [Hlt|[->|Hgt]]; [exact Hlt| |].
        -- rewrite HP in Hx. injection Hx as _ Hx. exfalso.
           eapply Hunsettled. exact Hx.
        -- exfalso.
           destruct (chain_fifo σ I p x (mkPromise ev st) (mkPromise evx (Settled o)))
             as [o' Ho']; try assumption.
           ++ rewrite HX0 in Hx. rewrite HP in HY0.
              injection Hx as ->. injection HY0 as <-. congruence.
           ++ intros prev. discriminate.
           ++ eapply Hunsettled. exact Ho'.
  - (* cleanExpiredSessions *)
    destruct G as [G1 G2 G3 G4].
    split; rewrite ?HG'; try rewrite HP'; assumption.
Qed.
(** ** Session objects *)

Lemma step_effect (a : action) (σ σ' : State) :
  step config a σ = Some σ' → effect config σ σ'.
Proof.
  destruct a as [ev|p now|p fo now w|now maxAge]; simpl.
  - intros [= <-]. eapply effect_submit. reflexivity.
  - destruct (promises σ !! p) as [[ev [prev|r|o]]|] eqn:EP; try discriminate.
    destruct (prev_outcome σ prev) as [[v0|msg]|] eqn:EO; try discriminate.
    + destruct (_processMessage_begin config σ ev now) as [[σ2 pr]|] eqn:EB;
        [|discriminate].
      apply _processMessage_begin_spec in EB
        as (σ1 & r & s & EL & EH & -> & Hpr).
      assert (Hsame : promises σ1 = promises σ ∧ files σ1 = files σ).
      { apply _loadSession_spec in EL as [[_ ->]|(_ & _ & ->)];
          split; reflexivity. }
      destruct Hsame as (HP & HF).
      destruct Hpr as [->|(-> & Hne & Hep)]; intros [= <-].
      * eapply (effect_begin _ _ _ p ev prev _ now σ1 r s (Settled (Fulfilled None)));
          simpl; rewrite ?HP; eauto.
      * eapply (effect_begin _ _ _ p ev prev _ now σ1 r s (Running r));
          simpl; rewrite ?HP; eauto.
    + intros [= <-]. eapply effect_skip; eauto.
  - destruct (promises σ !! p) as [[ev [prev|r|o]]|] eqn:EP; try discriminate.
    destruct (_processMessage_resume σ ev r fo now w) as [[σ1 o]|] eqn:ER;
      [|discriminate].
    intros [= <-].
    apply _processMessage_resume_spec in ER as (s & EH & [[-> ->]|Hr]).
    + eapply effect_no_reply; eauto.
    + destruct Hr as (text & cid & HS & HH & _ & HP & _ & Hw).
      eapply (effect_reply _ _ _ p ev r s text cid now (catch_ o)); simpl;
        rewrite ?HP; eauto.
      destruct Hw as [(msg & _ & _ & HF)|(_ & _ & HF)]; [left|right]; exact HF.
  - intros [= <-]. eapply effect_sweep. reflexivity.
Qed.

Lemma heap_inv_init (disk : gmap (list N) FileContent) : heap_inv (init disk).
Proof.
  split; simpl; intros; try discriminate;
    match goal with H : ∅ !! _ = Some _ |- _ => rewrite lookup_empty in H end;
    discriminate.
Qed.

(** The promises that are running after a change of the promise [p]. *)
Lemma running_update (l : list Promise) (p q : nat) (ev ev' : Event)
    (st st' : status) (r : nat) :
  l !! p = Some (mkPromise ev st) →
  (<[p := mkPromise ev st']> l) !! q = Some (mkPromise ev' (Running r)) →
  (q = p ∧ ev' = ev ∧ st' = Running r)
  ∨ (q ≠ p ∧ l !! q = Some (mkPromise ev' (Running r))).
Proof.
  intros HP HQ.
  eapply update_lookup in HQ as [[-> [= -> ->]]|[Hne HQ]]; [| |exact HP].
  - left. repeat split; reflexivity.
  - right. split; assumption.
Qed.

Lemma heap_inv_step (a : action) (σ σ' : State) :
  heap_inv σ → step config a σ = Some σ' → heap_inv σ'.
Proof.
  intros H Hstep. apply step_effect in Hstep.
  destruct H as [Hsv Hrv Hso Hro Hsi].
  destruct Hstep as
    [ev ->
    |p ev prev msg HP HO ->
    |p ev prev o now σ1 r s st' HP HO EL EH Hst HS' HH' HF' HP'
    |p ev r HP HS' HH' HF' HP'
    |p ev r s text cid now o HP EH HS' HH' HF' HP'
    |now maxAge ->].
  - (* handleMessage *)
    assert (Hold : ∀ q ev' r, promises (handleMessage σ ev) !! q
                     = Some (mkPromise ev' (Running r)) →
                   promises σ !! q = Some (mkPromise ev' (Running r))).
    { intros q ev' r HQ. simpl in HQ.
      apply lookup_snoc_Some in HQ as [[_ HQ]|[_ HQ]]; [exact HQ | discriminate]. }
    split; simpl sessions; simpl heap; eauto.
  - (* a skipped unit *)
    assert (Hold : ∀ q ev' r, promises (settle σ p ev (Fulfilled None) [OSkip p]) !! q
                     = Some (mkPromise ev' (Running r)) →
                   promises σ !! q = Some (mkPromise ev' (Running r))).
    { intros q ev' r HQ. simpl in HQ.
      eapply running_update in HQ as [(_ & _ & [=])|[_ HQ]]; [exact HQ | exact HP]. }
    split; simpl sessions; simpl heap; eauto.
  - (* the first half of a unit *)
    assert (Hlen : length (heap σ) ≤ length (heap σ'))
      by (rewrite HH', length_insert;
          apply _loadSession_spec in EL as [[_ ->]|(_ & _ & ->)]; simpl;
          rewrite ?length_app; lia).
    assert (Hr : r < length (heap σ'))
      by (rewrite HH', length_insert; eapply lookup_lt_Some; exact EH).
    assert (Hrun : ∀ q ev' r', promises σ' !! q = Some (mkPromise ev' (Running r')) →
              (q = p ∧ ev' = ev ∧ r' = r)
              ∨ (q ≠ p ∧ promises σ !! q = Some (mkPromise ev' (Running r')))).
    { intros q ev' r' HQ. rewrite HP' in HQ.
      eapply running_update in HQ as [(Eq & Eev & Est)|[Hne HQ]]; [| |exact HP].
      - left. destruct Hst as [Hst|(Hst & _)]; rewrite Hst in Est;
          [discriminate|]. injection Est as Est. repeat split; congruence.
      - right. split; assumption. }
    apply _loadSession_spec in EL as [[ES ->]|(ES & -> & ->)]; simpl in HS', EH.
    + (* the key has a session object *)
      split; rewrite ?HS'.
      * intros K r' HK. specialize (Hsv K r' HK). lia.
      * intros q ev' r' HQ. apply Hrun in HQ as [(_ & _ & ->)|[_ HQ]]; [exact Hr|].
        specialize (Hrv q ev' r' HQ). lia.
      * intros K r' q ev' HK HQ. apply Hrun in HQ as [(_ & -> & ->)|[_ HQ]].
        -- eapply Hsi; eassumption.
        -- eapply Hso; eassumption.
      * intros q1 q2 ev1 ev2 r' H1 H2.
        apply Hrun in H1 as [(_ & -> & ->)|[_ H1]];
          apply Hrun in H2 as [(_ & -> & E2)|[_ H2]]; subst; try reflexivity.
        -- symmetry. eapply Hso; eassumption.
        -- eapply Hso; eassumption.
        -- eapply Hro; eassumption.
      * exact Hsi.
    + (* a new session object *)
      assert (Hfresh : ∀ K, sessions σ !! K ≠ Some (length (heap σ))).
      { intros K HK. specialize (Hsv K _ HK). lia. }
      assert (Hfresh' : ∀ q ev', promises σ !! q
                          ≠ Some (mkPromise ev' (Running (length (heap σ))))).
      { intros q ev' HQ. specialize (Hrv q ev' _ HQ). lia. }
      split; rewrite ?HS'.
      * intros K r' HK. apply lookup_insert_Some in HK as [[_ <-]|[_ HK]];
          [exact Hr|]. specialize (Hsv K r' HK). lia.
      * intros q ev' r' HQ. apply Hrun in HQ as [(_ & _ & ->)|[_ HQ]]; [exact Hr|].
        specialize (Hrv q ev' r' HQ). lia.
      * intros K r' q ev' HK HQ.
        apply lookup_insert_Some in HK as [[<- <-]|[Hne HK]];
          apply Hrun in HQ as [(_ & -> & E)|[_ HQ]]; subst; try reflexivity.
        -- exfalso. eapply Hfresh'. exact HQ.
        -- exfalso. eapply Hfresh. exact HK.
        -- eapply Hso; eassumption.
      * intros q1 q2 ev1 ev2 r' H1 H2.
        apply Hrun in H1 as [(_ & -> & ->)|[_ H1]];
          apply Hrun in H2 as [(_ & -> & E2)|[_ H2]]; subst; try reflexivity.
        -- exfalso. eapply Hfresh'. exact H2.
        -- exfalso. eapply Hfresh'. exact H1.
        -- eapply Hro; eassumption.
      * intros K K' r' HK HK'.
        apply lookup_insert_Some in HK as [[<- <-]|[Hne HK]];
          apply lookup_insert_Some in HK' as [[<- E]|[Hne' HK']];
          subst; try reflexivity.
        -- exfalso. eapply Hfresh. exact HK'.
        -- exfalso. eapply Hfresh. exact HK.
        -- eapply Hsi; eassumption.
  - (* the agent call ends without a reply *)
    assert (Hold : ∀ q ev' r', promises σ' !! q = Some (mkPromise ev' (Running r')) →
                   promises σ !! q = Some (mkPromise ev' (Running r'))).
    { intros q ev' r' HQ. rewrite HP' in HQ.
      eapply running_update in HQ as [(_ & _ & [=])|[_ HQ]]; [exact HQ | exact HP]. }
    split; rewrite ?HS', ?HH'; eauto.
  - (* the agent call ends with a reply *)
    assert (Hold : ∀ q ev' r', promises σ' !! q = Some (mkPromise ev' (Running r')) →
                   promises σ !! q = Some (mkPromise ev' (Running r'))).
    { intros q ev' r' HQ. rewrite HP' in HQ.
      eapply running_update in HQ as [(_ & _ & [=])|[_ HQ]]; [exact HQ | exact HP]. }
    split; rewrite ?HS', ?HH', ?length_insert.
    + intros K r' HK. apply lookup_insert_Some in HK as [[_ <-]|[_ HK]]; eauto.
    + eauto.
    + intros K r' q ev' HK HQ. apply Hold in HQ.
      apply lookup_insert_Some in HK as [[<- <-]|[Hne HK]].
      * eapply Hro; eassumption.
      * eapply Hso; eassumption.
    + intros q1 q2 ev1 ev2 r' H1 H2. apply Hold in H1, H2. eapply Hro; eassumption.
    + intros K K' r' HK HK'.
      apply lookup_insert_Some in HK as [[<- <-]|[Hne HK]];
        apply lookup_insert_Some in HK' as [[<- E]|[Hne' HK']];
        subst; try reflexivity.
      * eapply Hso; eassumption.
      * symmetry. eapply Hso; eassumption.
      * eapply Hsi; eassumption.
  - (* cleanExpiredSessions *)
    assert (Hsub : ∀ K r, sessions (cleanExpiredSessions σ now maxAge) !! K = Some r →
                   sessions σ !! K = Some r).
    { intros K r HK. simpl in HK. apply map_lookup_filter_Some in HK as [HK _].
      exact HK. }
    split; simpl heap; simpl promises; eauto.
Qed.
(** ** Histories and files *)

Lemma effective_maxHistory_pos :
  config_ok config → (1 ≤ effective_maxHistory config)%Z.
Proof.
  unfold config_ok, effective_maxHistory.
  destruct (maxHistory config) as [m|]; [|lia].
  intros Hm. destruct (Z.eqb_spec m 0); lia.
Qed.

(** The truncation keeps a suffix: the turn pushed last survives unless
    nothing does. *)
Lemma truncate_snoc (h : list Turn) (t : Turn) :
  truncate config (h ++ [t]) = []
  ∨ ∃ h', truncate config (h ++ [t]) = h' ++ [t].
Proof.
  unfold truncate, slice.
  destruct (Z.of_nat (length (h ++ [t])) >? effective_maxHistory config)%Z;
    [|right; eauto].
  set (n := Z.to_nat _). destruct (decide (n ≤ length h)) as [Hle|Hgt].
  - right. exists (drop n h). rewrite drop_app_le by exact Hle. reflexivity.
  - left. apply drop_ge. rewrite length_app. simpl. lia.
Qed.

Lemma truncate_length (h : list Turn) :
  config_ok config →
  (Z.of_nat (length (truncate config h)) ≤ effective_maxHistory config)%Z.
Proof.
  intros Hok. pose proof (effective_maxHistory_pos Hok) as Hpos.
  unfold truncate, slice.
  destruct (Z.gtb_spec (Z.of_nat (length h)) (effective_maxHistory config));
    [|lia].
  rewrite length_drop.
  destruct (Z.ltb_spec (- effective_maxHistory config) 0); lia.
Qed.

(** Two units of work that are under way belong to different keys. *)
Lemma active_distinct (σ : State) (p q : nat) (ev evq : Event) (st : status)
    (rq : nat) :
  chain_inv σ → p ≠ q →
  promises σ !! q = Some (mkPromise evq (Running rq)) →
  promises σ !! p = Some (mkPromise ev st) →
  (∃ r, st = Running r)
  ∨ (∃ prev o, st = Waiting prev ∧ prev_outcome σ prev = Some o) →
  sessionKey_of ev ≠ sessionKey_of evq.
Proof.
  intros I Hne HQ HP Hst HK.
  destruct (Nat.lt_trichotomy p q) as [Hlt|[->|Hgt]]; [|congruence|].
  - destruct (chain_fifo σ I p q _ _ Hlt HP HQ HK) as [o Ho];
      [intros prev; discriminate|].
    simpl in Ho. destruct Hst as [[r ->]|(prev & o' & -> & _)]; discriminate.
  - destruct Hst as [[r ->]|(prev & o' & -> & HO)].
    + destruct (chain_fifo σ I q p _ _ Hgt HQ HP (eq_sym HK)) as [o Ho];
        [intros prev; discriminate | discriminate].
    + destruct (earlier_settled σ p ev prev o' I HP HO q _ Hgt HQ (eq_sym HK))
        as [o Ho]. discriminate.
Qed.

Lemma data_inv_init (disk : gmap (list N) FileContent) :
  data_inv config disk (init disk).
Proof.
  split; simpl.
  - intros p ev r H. discriminate.
  - intros _ p ev r s H. discriminate.
  - intros _ path. left. reflexivity.
Qed.

Lemma data_inv_step (disk : gmap (list N) FileContent) (a : action)
    (σ σ' : State) :
  chain_inv σ → heap_inv σ → data_inv config disk σ →
  step config a σ = Some σ' → data_inv config disk σ'.
Proof.
  intros I H D Hstep. apply step_effect in Hstep.
  destruct D as [Din Dbound Dfiles].
  destruct Hstep as
    [ev ->
    |p ev prev msg HP HO ->
    |p ev prev o now σ1 r s st' HP HO EL EH Hst HS' HH' HF' HP'
    |p ev r HP HS' HH' HF' HP'
    |p ev r s text cid now o HP EH HS' HH' HF' HP'
    |now maxAge ->].
  - (* handleMessage *)
    assert (Hold : ∀ q ev' r, promises (handleMessage σ ev) !! q
                     = Some (mkPromise ev' (Running r)) →
                   promises σ !! q = Some (mkPromise ev' (Running r))).
    { intros q ev' r HQ. simpl in HQ.
      apply lookup_snoc_Some in HQ as [[_ HQ]|[_ HQ]]; [exact HQ | discriminate]. }
    split; simpl heap; eauto.
  - (* a skipped unit *)
    assert (Hold : ∀ q ev' r, promises (settle σ p ev (Fulfilled None) [OSkip p]) !! q
                     = Some (mkPromise ev' (Running r)) →
                   promises σ !! q = Some (mkPromise ev' (Running r))).
    { intros q ev' r HQ. simpl in HQ.
      eapply running_update in HQ as [(_ & _ & [=])|[_ HQ]]; [exact HQ | exact HP]. }
    split; simpl heap; eauto.
  - (* the first half of a unit *)
    set (h := truncate config (history s ++ [user_turn ev now])) in *.
    set (s' := mkSession h (session_conversationId s) (lastActivity s)) in *.
    assert (Hr : heap σ' !! r = Some s').
    { rewrite HH'. apply list_lookup_insert_eq. eapply lookup_lt_Some. exact EH. }
    assert (Hother : ∀ q evq rq, q ≠ p →
              promises σ !! q = Some (mkPromise evq (Running rq)) →
              heap σ' !! rq = heap σ !! rq).
    { intros q evq rq Hne HQ. rewrite HH'.
      apply _loadSession_spec in EL as [[ES ->]|(ES & -> & ->)]; simpl.
      - rewrite list_lookup_insert_ne; [reflexivity|]. intros <-.
        eapply (active_distinct σ p q ev evq); eauto.
        rewrite (sess_owner σ H _ _ _ _ ES HQ). reflexivity.
      - pose proof (run_valid σ H _ _ _ HQ) as Hlt.
        rewrite list_lookup_insert_ne by lia.
        apply lookup_app_l. exact Hlt. }
    assert (Hrun : ∀ q ev' r', promises σ' !! q = Some (mkPromise ev' (Running r')) →
              (q = p ∧ ev' = ev ∧ r' = r ∧ h ≠ [])
              ∨ (q ≠ p ∧ promises σ !! q = Some (mkPromise ev' (Running r')))).
    { intros q ev' r' HQ. rewrite HP' in HQ.
      eapply running_update in HQ as [(Eq & Eev & Est)|[Hne HQ]]; [| |exact HP].
      - left. destruct Hst as [Hst|(Hst & Hh & _)]; rewrite Hst in Est;
          [discriminate|]. injection Est as Est. repeat split; congruence.
      - right. split; assumption. }
    split.
    + intros q ev' r' HQ. apply Hrun in HQ as [(-> & -> & -> & Hh)|[Hne HQ]].
      * exists s'. split; [exact Hr|].
        destruct (truncate_snoc (history s) (user_turn ev now)) as [E|[h' E]];
          [contradiction|].
        exists h', (user_turn ev now). repeat split. exact E.
      * rewrite (Hother q ev' r' Hne HQ). eapply Din. exact HQ.
    + intros Hok q ev' r' s0 HQ Hs0.
      apply Hrun in HQ as [(-> & -> & -> & Hh)|[Hne HQ]].
      * rewrite Hr in Hs0. injection Hs0 as <-. simpl.
        apply truncate_length. exact Hok.
      * rewrite (Hother q ev' r' Hne HQ) in Hs0. eapply Dbound; eassumption.
    + intros Hok path. unfold file_bounded. rewrite HF'. apply Dfiles. exact Hok.
  - (* the agent call ends without a reply *)
    assert (Hold : ∀ q ev' r', promises σ' !! q = Some (mkPromise ev' (Running r')) →
                   promises σ !! q = Some (mkPromise ev' (Running r'))).
    { intros q ev' r' HQ. rewrite HP' in HQ.
      eapply running_update in HQ as [(_ & _ & [=])|[_ HQ]]; [exact HQ | exact HP]. }
    split; unfold file_bounded; rewrite ?HH', ?HF'; eauto.
  - (* the agent call ends with a reply *)
    assert (Hold : ∀ q ev' r', promises σ' !! q = Some (mkPromise ev' (Running r')) →
              q ≠ p ∧ promises σ !! q = Some (mkPromise ev' (Running r'))
              ∧ heap σ' !! r' = heap σ !! r').
    { intros q ev' r' HQ. rewrite HP' in HQ.
      eapply running_update in HQ as [(_ & _ & [=])|[Hne HQ]]; [|exact HP].
      split; [exact Hne|]. split; [exact HQ|].
      rewrite HH'. rewrite list_lookup_insert_ne; [reflexivity|]. intros <-.
      eapply (active_distinct σ p q ev ev'); eauto.
      eapply (run_owner σ H); eassumption. }
    split.
    + intros q ev' r' HQ. apply Hold in HQ as (_ & HQ & ->). eapply Din. exact HQ.
    + intros Hok q ev' r' s0 HQ. apply Hold in HQ as (_ & HQ & ->).
      eapply Dbound; eassumption.
    + intros Hok path. specialize (Dfiles Hok path).
      destruct HF' as [HF'|HF']; unfold file_bounded in *; rewrite HF';
        [exact Dfiles|].
      destruct (decide (_sessionPath (sessionKey_of ev) = path)) as [<-|Hne].
      * right. eexists. rewrite lookup_insert_eq. split; [reflexivity|].
        rewrite length_app. simpl.
        pose proof (Dbound Hok p ev r s HP EH).
        pose proof (effective_maxHistory_pos Hok). lia.
      * rewrite lookup_insert_ne by exact Hne. exact Dfiles.
  - (* cleanExpiredSessions *)
    split; simpl heap; simpl promises; eauto.
Qed.
(** ** Reachable states *)

Lemma reachable_inv (disk : gmap (list N) FileContent) (σ : State) :
  reachable config disk σ →
  chain_inv σ ∧ log_inv σ ∧ heap_inv σ ∧ data_inv config disk σ.
Proof.
  induction 1 as [|a σ σ' _ (I & G & H & D) Hstep].
  - split; [apply chain_inv_init|]. split; [apply log_inv_init|].
    split; [apply heap_inv_init | apply data_inv_init].
  - split; [eapply chain_inv_step; eassumption|].
    split; [eapply log_inv_step; eassumption|].
    split; [eapply heap_inv_step; eassumption|].
    eapply data_inv_step; eassumption.
Qed.

Lemma reachable_run (disk : gmap (list N) FileContent) (acts : list action)
    (σ σ' : State) :
  reachable config disk σ → run config acts σ = Some σ' →
  reachable config disk σ'.
Proof.
  revert σ. induction acts as [|a acts IH]; simpl; intros σ Hr.
  - intros [= <-]. exact Hr.
  - destruct (step config a σ) as [σ1|] eqn:E; [|discriminate].
    apply IH. eapply reachable_step; eassumption.
Qed.

Lemma run_app (acts1 acts2 : list action) (σ σ1 σ2 : State) :
  run config acts1 σ = Some σ1 → run config acts2 σ1 = Some σ2 →
  run config (acts1 ++ acts2) σ = Some σ2.
Proof.
  revert σ. induction acts1 as [|a acts1 IH]; simpl; intros σ.
  - intros [= <-]. trivial.
  - destruct (step config a σ) as [σ'|]; [apply IH | discriminate].
Qed.

(** ** Steps that can be taken *)

Lemma truncate_nonempty (h : list Turn) (t : Turn) :
  config_ok config → truncate config (h ++ [t]) ≠ [].
Proof.
  intros Hok E. pose proof (effective_maxHistory_pos Hok) as Hpos.
  apply (f_equal length) in E. revert E.
  unfold truncate, slice.
  destruct (Z.gtb_spec (Z.of_nat (length (h ++ [t]))) (effective_maxHistory config));
    rewrite ?length_drop, length_app; simpl; [|lia].
  rewrite length_app in *. simpl in *.
  destruct (Z.ltb_spec (- effective_maxHistory config) 0); lia.
Qed.

(** The reaction of a promise whose predecessor has settled runs the
    first half of its unit of work. *)
Lemma step_Start_enabled (σ : State) (q : nat) (ev : Event)
    (prev : option nat) (v : option Reply) (now : Z) :
  heap_inv σ →
  promises σ !! q = Some (mkPromise ev (Waiting prev)) →
  prev_outcome σ prev = Some (Fulfilled v) →
  ∃ σ' st',
    step config (Start q now) σ = Some σ'
    ∧ promises σ' = <[q := mkPromise ev st']> (promises σ)
    ∧ (st' = Settled (Fulfilled None) ∨ ∃ r, st' = Running r).
Proof.
  intros H HQ HO.
  assert (∃ σ2 pr, _processMessage_begin config σ ev now = Some (σ2, pr))
    as (σ2 & pr & EB).
  { unfold _processMessage_begin, _loadSession.
    destruct (sessions σ !! sessionKey_of ev) as [r|] eqn:ES.
    - destruct (lookup_lt_is_Some_2 (heap σ) r (sess_valid σ H _ _ ES)) as [s ->].
      destruct (resolve_endpoint config (ev_channel ev)); [eauto|].
      destruct (truncate config _); eauto.
    - simpl. rewrite lookup_app_r, Nat.sub_diag by lia. simpl.
      destruct (resolve_endpoint config (ev_channel ev)); [eauto|].
      destruct (truncate config _); eauto. }
  simpl. rewrite HQ, HO, EB.
  apply _processMessage_begin_spec in EB as (σ1 & r & s & EL & EH & -> & Hpr).
  assert (HP1 : promises σ1 = promises σ)
    by (apply _loadSession_spec in EL as [[_ ->]|(_ & _ & ->)]; reflexivity).
  destruct Hpr as [->|(-> & Hh & Hep)].
  - eexists _, (Settled (Fulfilled None)).
    split; [reflexivity|]. simpl. rewrite HP1.
    split; [reflexivity|]. left. reflexivity.
  - eexists _, (Running r).
    split; [reflexivity|]. simpl. rewrite HP1.
    split; [reflexivity|]. right. eauto.
Qed.

(** With an endpoint and a sound [maxHistory], the unit gets to its
    agent call. *)
Lemma step_Start_await (σ : State) (q : nat) (ev : Event)
    (prev : option nat) (v : option Reply) (now : Z) :
  heap_inv σ → config_ok config →
  resolve_endpoint config (ev_channel ev) ≠ [] →
  promises σ !! q = Some (mkPromise ev (Waiting prev)) →
  prev_outcome σ prev = Some (Fulfilled v) →
  ∃ σ' r,
    step config (Start q now) σ = Some σ'
    ∧ promises σ' = <[q := mkPromise ev (Running r)]> (promises σ)
    ∧ log σ' = log σ ++ [ORun q].
Proof.
  intros H Hok Hep HQ HO.
  assert (∃ σ2 pr, _processMessage_begin config σ ev now = Some (σ2, pr))
    as (σ2 & pr & EB).
  { destruct (step_Start_enabled σ q ev prev v now H HQ HO) as (σ' & st' & E & _).
    simpl in E. rewrite HQ, HO in E.
    destruct (_processMessage_begin config σ ev now) as [[σ2 pr]|]; [eauto|].
    discriminate. }
  simpl. rewrite HQ, HO, EB.
  pose proof EB as EB'.
  apply _processMessage_begin_spec in EB as (σ1 & r & s & EL & EH & -> & Hpr).
  assert (HP1 : promises σ1 = promises σ ∧ log σ1 = log σ)
    by (apply _loadSession_spec in EL as [[_ ->]|(_ & _ & ->)]; split; reflexivity).
  destruct HP1 as [HP1 HG1].
  destruct Hpr as [->|(-> & _)].
  - exfalso. unfold _processMessage_begin in EB'. rewrite EL, EH in EB'.
    destruct (resolve_endpoint config (ev_channel ev)) as [|c e]; [congruence|].
    pose proof (truncate_nonempty (history s) (user_turn ev now) Hok) as Hne.
    destruct (truncate config (history s ++ [user_turn ev now]));
      [congruence | discriminate].
  - eexists _, r. split; [reflexivity|]. simpl. rewrite HP1, HG1.
    split; reflexivity.
Qed.

Lemma first_truthy_nonempty (l : list (option jsstring)) (text : jsstring) :
  first_truthy l = Some text → text ≠ [].
Proof.
  induction l as [|o l IH]; simpl; [discriminate|].
  destruct o as [[|c t]|]; simpl; try exact IH.
  intros [= <-]. discriminate.
Qed.

(** The end of the agent call of a suspended unit settles its promise,
    whatever the answer is. *)
Lemma step_Resume_enabled (σ : State) (p : nat) (ev : Event) (r : nat)
    (fo : FetchOutcome) (now : Z) (w : option jsstring) :
  heap_inv σ →
  promises σ !! p = Some (mkPromise ev (Running r)) →
  ∃ σ' v,
    step config (Resume p fo now w) σ = Some σ'
    ∧ promises σ' = <[p := mkPromise ev (Settled (Fulfilled v))]> (promises σ)
    ∧ log σ' = log σ ++ [OSettle p (Fulfilled v)]
    ∧ (unit_fails fo w → v = None)
    ∧ (no_reply fo →
       files σ' = files σ ∧ heap σ' = heap σ ∧ sessions σ' = sessions σ)
    ∧ (∀ data text,
         fo = Json data → w = None →
         first_truthy [data_reply data; data_response data; data_text data]
         = Some text →
         v = Some (mkReply text (sessionKey_of ev))
         ∧ ∃ s, heap σ !! r = Some s
                ∧ files σ' = <[_sessionPath (sessionKey_of ev) :=
                                 Lines (history s ++ [assistant_turn text now])]>
                               (files σ)).
Proof.
  intros H HP.
  destruct (lookup_lt_is_Some_2 (heap σ) r (run_valid σ H _ _ _ HP)) as [s EH].
  assert (Hreply : ∀ data text,
            fo = Json data →
            first_truthy [data_reply data; data_response data; data_text data]
            = Some text →
            ∃ resp c t, _callAgent_finish fo = Some resp
                        ∧ agent_reply resp = Some (c :: t) ∧ text = c :: t).
  { intros data text -> Hft. pose proof (first_truthy_nonempty _ _ Hft) as Hne.
    destruct text as [|c t]; [contradiction|].
    eexists _, c, t. split; [reflexivity|]. split; [exact Hft | reflexivity]. }
  simpl. rewrite HP. unfold _processMessage_resume, unit_fails, no_reply.
  rewrite EH.
  destruct (_callAgent_finish fo) as [resp|] eqn:EA;
    [destruct (agent_reply resp) as [[|c text]|] eqn:ER; [|destruct w as [msg|]|]|].
  - eexists _, None. split; [reflexivity|]. simpl.
    split; [reflexivity|]. split; [reflexivity|].
    split; [intros _; reflexivity|]. split; [intros _; repeat split|].
    intros data text Hfo _ Hft.
    destruct (Hreply data text Hfo Hft) as (resp' & c & t & E1 & E2 & _).
    congruence.
  - eexists _, None. split; [reflexivity|]. simpl.
    split; [reflexivity|]. split; [reflexivity|].
    split; [intros _; reflexivity|].
    split; [intros Hn; discriminate|].
    intros data text' _ Hw. discriminate.
  - eexists _, (Some (mkReply (c :: text) (sessionKey_of ev))).
    split; [reflexivity|]. simpl.
    split; [reflexivity|]. split; [reflexivity|].
    split; [intros [Hn|Hn]; [discriminate | contradiction]|].
    split; [intros Hn; discriminate|].
    intros data text' Hfo _ Hft.
    destruct (Hreply data text' Hfo Hft) as (resp' & c' & t' & E1 & E2 & ->).
    assert (c' :: t' = c :: text) as -> by congruence.
    split; [reflexivity|]. exists s. split; reflexivity.
  - eexists _, None. split; [reflexivity|]. simpl.
    split; [reflexivity|]. split; [reflexivity|].
    split; [intros _; reflexivity|]. split; [intros _; repeat split|].
    intros data text Hfo _ Hft.
    destruct (Hreply data text Hfo Hft) as (resp' & c & t & E1 & E2 & _).
    congruence.
  - eexists _, None. split; [reflexivity|]. simpl.
    split; [reflexivity|]. split; [reflexivity|].
    split; [intros _; reflexivity|]. split; [intros _; repeat split|].
    intros data text Hfo _ Hft.
    destruct (Hreply data text Hfo Hft) as (resp' & c & t & E1 & E2 & _).
    congruence.
Qed.
(** ** Every unit of work gets executed *)

Lemma prev_of_settled (σ : State) (p : nat) (ev : Event) (prev : option nat) :
  chain_inv σ → settled_below σ p →
  promises σ !! p = Some (mkPromise ev (Waiting prev)) →
  ∃ v, prev_outcome σ prev = Some (Fulfilled v).
Proof.
  intros I Hs HP. pose proof (chain_prev σ I p ev prev HP) as HL.
  destruct prev as [q0|]; simpl in *; [|eauto].
  destruct HL as (Hlt & _). destruct (Hs q0 Hlt) as (ev0 & o & HQ0).
  rewrite HQ0. destruct o as [v|msg]; [eauto|].
  exfalso. eapply (chain_fulfilled σ I); [exact HQ0 | reflexivity].
Qed.

Lemma settled_below_update (σ σ' : State) (p : nat) (ev : Event) (o : settled) :
  settled_below σ p → p < length (promises σ) →
  promises σ' = <[p := mkPromise ev (Settled o)]> (promises σ) →
  settled_below σ' (S p).
Proof.
  intros Hs Hlt HP' q Hq. rewrite HP'. destruct (decide (q = p)) as [->|Hne].
  - rewrite list_lookup_insert_eq by exact Hlt. eauto.
  - rewrite list_lookup_insert_ne by congruence. apply Hs. lia.
Qed.

(** From a state in which the promises before [p] have settled, the
    reaction of [p] and the end of its agent call, whatever its answer,
    can happen and settle [p]. *)
Lemma settle_next (disk : gmap (list N) FileContent) (σ : State) (p : nat)
    (answer : nat → FetchOutcome) (write_error : nat → option jsstring)
    (now : Z) :
  reachable config disk σ → settled_below σ p → p < length (promises σ) →
  ∃ acts σ',
    follows answer write_error acts
    ∧ run config acts σ = Some σ' ∧ settled_below σ' (S p)
    ∧ length (promises σ') = length (promises σ).
Proof.
  intros Hr Hs Hlt. destruct (reachable_inv disk σ Hr) as (I & _ & H & _).
  destruct (lookup_lt_is_Some_2 _ _ Hlt) as [[ev [prev|r|o]] HP].
  - destruct (prev_of_settled σ p ev prev I Hs HP) as [v HO].
    destruct (step_Start_enabled σ p ev prev v now H HP HO)
      as (σ1 & st' & E1 & HP1 & [->|[r ->]]).
    + exists [Start p now], σ1.
      split; [repeat constructor|]. cbn [run]. rewrite E1.
      split; [reflexivity|]. split.
      * eapply settled_below_update; eassumption.
      * rewrite HP1. apply length_insert.
    + assert (Hr1 : reachable config disk σ1)
        by (eapply reachable_step; eassumption).
      destruct (reachable_inv disk σ1 Hr1) as (_ & _ & H1 & _).
      assert (HPr : promises σ1 !! p = Some (mkPromise ev (Running r)))
        by (rewrite HP1; apply list_lookup_insert_eq; exact Hlt).
      destruct (step_Resume_enabled σ1 p ev r (answer p) now (write_error p) H1 HPr)
        as (σ2 & v' & E2 & HP2 & _).
      exists [Start p now; Resume p (answer p) now (write_error p)], σ2.
      split; [repeat constructor|].
      cbn [run]. rewrite E1, E2. split; [reflexivity|].
      rewrite HP2, HP1, list_insert_insert_eq. split.
      * eapply settled_below_update; [exact Hs | exact Hlt |].
        rewrite HP2, HP1. apply list_insert_insert_eq.
      * apply length_insert.
  - destruct (step_Resume_enabled σ p ev r (answer p) now (write_error p) H HP)
      as (σ2 & v' & E2 & HP2 & _).
    exists [Resume p (answer p) now (write_error p)], σ2.
    split; [repeat constructor|].
    cbn [run]. rewrite E2. split; [reflexivity|]. split.
    + eapply settled_below_update; eassumption.
    + rewrite HP2. apply length_insert.
  - exists [], σ. split; [constructor|]. split; [reflexivity|].
    split; [|reflexivity].
    intros q Hq. destruct (decide (q = p)) as [->|Hne]; [eauto|].
    apply Hs. lia.
Qed.

Lemma settle_all (disk : gmap (list N) FileContent)
    (answer : nat → FetchOutcome) (write_error : nat → option jsstring)
    (now : Z) (d : nat) :
  ∀ (σ : State) (m : nat),
    reachable config disk σ → settled_below σ m →
    length (promises σ) = m + d →
    ∃ acts σ',
      follows answer write_error acts
      ∧ run config acts σ = Some σ'
      ∧ settled_below σ' (length (promises σ'))
      ∧ length (promises σ') = length (promises σ).
Proof.
  induction d as [|d IH]; intros σ m Hr Hs Hlen.
  - exists [], σ. split; [constructor|]. split; [reflexivity|].
    split; [|reflexivity].
    rewrite Hlen, Nat.add_0_r. exact Hs.
  - destruct (settle_next disk σ m answer write_error now Hr Hs)
      as (acts1 & σ1 & F1 & E1 & Hs1 & Hl1); [lia|].
    destruct (IH σ1 (S m)) as (acts2 & σ2 & F2 & E2 & Hs2 & Hl2).
    + eapply reachable_run; eassumption.
    + exact Hs1.
    + lia.
    + exists (acts1 ++ acts2), σ2.
      split; [apply Forall_app; split; assumption|].
      split; [eapply run_app; eassumption|].
      split; [exact Hs2 | congruence].
Qed.

(** * The claims on the concurrency router *)

(** C1.  A unit of work that is suspended at its agent call and then
    fails - no usable reply, or the write of the session file throws -
    settles its promise as fulfilled with [null].  The reaction of the
    next promise of the key, which waits for it, can then run: its unit
    of work gets to its agent call, and when the agent replies and the
    file is written it is answered with that reply. *)
Theorem failure_does_not_poison_chain (disk : gmap (list N) FileContent)
    (σ : State) (p q : nat) (ev1 ev2 : Event) (r : nat)
    (fo : FetchOutcome) (w : option jsstring) (now1 now2 : Z) :
  reachable config disk σ →
  config_ok config →
  resolve_endpoint config (ev_channel ev2) ≠ [] →
  promises σ !! p = Some (mkPromise ev1 (Running r)) →
  promises σ !! q = Some (mkPromise ev2 (Waiting (Some p))) →
  unit_fails fo w →
  ∃ σ1 σ2 r2,
    step config (Resume p fo now1 w) σ = Some σ1
    ∧ promises σ1 !! p = Some (mkPromise ev1 (Settled (Fulfilled None)))
    ∧ step config (Start q now2) σ1 = Some σ2
    ∧ promises σ2 !! q = Some (mkPromise ev2 (Running r2))
    ∧ ORun q ∈ log σ2
    ∧ ∀ (data : AgentData) (text : jsstring) (now3 : Z),
        first_truthy [data_reply data; data_response data; data_text data]
        = Some text →
        ∃ σ3,
          step config (Resume q (Json data) now3 None) σ2 = Some σ3
          ∧ promises σ3 !! q
            = Some (mkPromise ev2
                      (Settled (Fulfilled (Some (mkReply text (sessionKey_of ev2))))))
          ∧ OSettle q (Fulfilled (Some (mkReply text (sessionKey_of ev2))))
            ∈ log σ3.
Proof.
  intros Hr Hok Hep HP HQ Hfail.
  destruct (reachable_inv disk σ Hr) as (_ & _ & H & _).
  assert (Hpq : p ≠ q) by (intros ->; congruence).
  pose proof (lookup_lt_Some _ _ _ HP) as Hp.
  pose proof (lookup_lt_Some _ _ _ HQ) as Hq.
  destruct (step_Resume_enabled σ p ev1 r fo now1 w H HP)
    as (σ1 & v & E1 & HP1 & _ & Hv & _).
  rewrite (Hv Hfail) in HP1. clear Hv.
  assert (Hr1 : reachable config disk σ1) by (eapply reachable_step; eassumption).
  destruct (reachable_inv disk σ1 Hr1) as (_ & _ & H1 & _).
  assert (HQ1 : promises σ1 !! q = Some (mkPromise ev2 (Waiting (Some p))))
    by (rewrite HP1, list_lookup_insert_ne by exact Hpq; exact HQ).
  assert (HPs : promises σ1 !! p = Some (mkPromise ev1 (Settled (Fulfilled None))))
    by (rewrite HP1; apply list_lookup_insert_eq; exact Hp).
  assert (HO : prev_outcome σ1 (Some p) = Some (Fulfilled None))
    by (simpl; rewrite HPs; reflexivity).
  destruct (step_Start_await σ1 q ev2 (Some p) None now2 H1 Hok Hep HQ1 HO)
    as (σ2 & r2 & E2 & HP2 & HG2).
  assert (Hr2 : reachable config disk σ2) by (eapply reachable_step; eassumption).
  destruct (reachable_inv disk σ2 Hr2) as (_ & _ & H2 & _).
  assert (Hq1 : q < length (promises σ1)) by (rewrite HP1, length_insert; exact Hq).
  assert (HQ2 : promises σ2 !! q = Some (mkPromise ev2 (Running r2)))
    by (rewrite HP2; apply list_lookup_insert_eq; exact Hq1).
  exists σ1, σ2, r2. repeat (split; [assumption|]).
  split; [rewrite HG2, elem_of_app, list_elem_of_singleton; tauto|].
  intros data text now3 Hft.
  destruct (step_Resume_enabled σ2 q ev2 r2 (Json data) now3 None H2 HQ2)
    as (σ3 & v3 & E3 & HP3 & HG3 & _ & _ & Hv3).
  destruct (Hv3 data text eq_refl eq_refl Hft) as [-> _].
  exists σ3. split; [exact E3|]. split.
  - rewrite HP3. apply list_lookup_insert_eq. rewrite HP2, length_insert. exact Hq1.
  - rewrite HG3, elem_of_app, list_elem_of_singleton. tauto.
Qed.

(** C2.  Promises are numbered in the order of the calls of
    [handleMessage].  In every state the gateway gets into: a unit of
    work has started only if all earlier ones of its key have settled, so
    the units of a key run one at a time in the order of submission;
    the promises of a key settle in that order; no unit is skipped, and
    each settled promise has run its unit; and from that state on, the
    promises that have not settled can all run and settle, whatever the
    agent answers. *)
Theorem per_key_fifo (disk : gmap (list N) FileContent) (σ : State) :
  reachable config disk σ →
  (∀ p q P Q,
     p < q → promises σ !! p = Some P → promises σ !! q = Some Q →
     key P = key Q → (∀ prev, state Q ≠ Waiting prev) →
     ∃ o, state P = Settled o)
  ∧ (∀ i j p q P Q,
       i < j → settled_seq (log σ) !! i = Some p →
       settled_seq (log σ) !! j = Some q →
       promises σ !! p = Some P → promises σ !! q = Some Q → key P = key Q →
       p < q)
  ∧ (∀ p, OSkip p ∉ log σ)
  ∧ (∀ p o, OSettle p o ∈ log σ → ORun p ∈ log σ)
  ∧ (∀ (answer : nat → FetchOutcome) (write_error : nat → option jsstring)
       (now : Z),
       ∃ acts σ',
         follows answer write_error acts
         ∧ run config acts σ = Some σ'
         ∧ length (promises σ') = length (promises σ)
         ∧ ∀ p, p < length (promises σ) →
                ORun p ∈ log σ' ∧ ∃ o, OSettle p o ∈ log σ').
Proof.
  intros Hr. destruct (reachable_inv disk σ Hr) as (I & G & _ & _).
  split; [apply (chain_fifo σ I)|]. split; [apply (log_order σ G)|].
  split; [apply (log_no_skip σ G)|]. split.
  - intros p o Ho. apply (log_settled σ G) in Ho as [ev Ho].
    eapply (log_ran σ G); [exact Ho|]. intros prev. discriminate.
  - intros answer write_error now.
    destruct (settle_all disk answer write_error now (length (promises σ)) σ 0 Hr)
      as (acts & σ' & F & E & Hs & Hlen); [intros q Hq; lia | reflexivity|].
    exists acts, σ'. split; [exact F|]. split; [exact E|]. split; [exact Hlen|].
    intros p Hp. destruct (Hs p) as (ev & o & HP); [lia|].
    destruct (reachable_inv disk σ' (reachable_run disk acts σ σ' Hr E))
      as (_ & G' & _ & _).
    split.
    + eapply (log_ran σ' G'); [exact HP|]. intros prev. discriminate.
    + exists o. apply (log_settled σ' G'). eauto.
Qed.

(** * The claims on the session store *)

(** The history is cut when the inbound turn has been pushed and the
    assistant turn is pushed after the cut. *)
Lemma history_bounds (disk : gmap (list N) FileContent)
    (σ : State) :
  config_ok config → reachable config disk σ →
  (∀ p ev r s,
     promises σ !! p = Some (mkPromise ev (Running r)) →
     heap σ !! r = Some s →
     (Z.of_nat (length (history s)) ≤ effective_maxHistory config)%Z)
  ∧ (∀ path,
       files σ !! path = disk !! path
       ∨ ∃ h, files σ !! path = Some (Lines h)
              ∧ (Z.of_nat (length h) ≤ effective_maxHistory config + 1)%Z).
Proof.
  intros Hok Hr. destruct (reachable_inv disk σ Hr) as (_ & _ & _ & D).
  split; [exact (run_bound config disk σ D Hok)|].
  intros path. destruct (files_bound config disk σ D Hok path) as [E|(h & E & Hh)];
    [left; exact E|].
  right. exists h. split; [exact E|].
  pose proof (effective_maxHistory_pos Hok). lia.
Qed.

(** C4 (amended).  When the agent call of a unit of work ends without a
    usable reply, the unit writes no file and changes nothing in memory:
    the session object it holds still ends with the inbound user turn,
    which the first half of the unit pushed, and has no assistant turn
    after it; the promise is fulfilled with [null]. *)
Theorem failed_dispatch_keeps_memory_only (disk : gmap (list N) FileContent)
    (σ : State) (p : nat) (ev : Event) (r : nat) (fo : FetchOutcome)
    (now : Z) (w : option jsstring) :
  reachable config disk σ →
  promises σ !! p = Some (mkPromise ev (Running r)) →
  no_reply fo →
  ∃ σ',
    step config (Resume p fo now w) σ = Some σ'
    ∧ files σ' = files σ ∧ heap σ' = heap σ ∧ sessions σ' = sessions σ
    ∧ (∃ s, heap σ' !! r = Some s ∧ ends_with_inbound ev s)
    ∧ promises σ' !! p = Some (mkPromise ev (Settled (Fulfilled None)))
    ∧ OSettle p (Fulfilled None) ∈ log σ'.
Proof.
  intros Hr HP Hno. destruct (reachable_inv disk σ Hr) as (_ & _ & H & D).
  destruct (step_Resume_enabled σ p ev r fo now w H HP)
    as (σ' & v & E & HP' & HG' & Hv & Hsame & _).
  rewrite (Hv (or_introl Hno)) in HP', HG'.
  destruct (Hsame Hno) as (HF & HH & HS).
  exists σ'. repeat (split; [assumption|]). split; [|split].
  - rewrite HH. eapply (run_inbound config disk σ D). exact HP.
  - rewrite HP'. apply list_lookup_insert_eq. eapply lookup_lt_Some. exact HP.
  - rewrite HG', elem_of_app, list_elem_of_singleton. tauto.
Qed.

(** The loader finds the conversation id of the last assistant turn. *)
Lemma recover_last_assistant (h : list Turn) (t : Turn) :
  role t = js "assistant" →
  recover_conversationId (h ++ [t])
  = if truthy (conversationId t) then conversationId t else None.
Proof.
  intros Hrole. unfold recover_conversationId.
  rewrite rev_app_distr. simpl. rewrite Hrole. reflexivity.
Qed.

(** The assistant turn that [_processMessage] pushes has no
    [conversationId]: the file that a successful unit of work writes
    never gives the conversation id back. *)
Lemma saved_session_forgets_id (σ σ' : State) (ev : Event) (r : nat)
    (fo : FetchOutcome) (now now' : Z) (v : Reply) :
  _processMessage_resume σ ev r fo now None = Some (σ', Fulfilled (Some v)) →
  session_conversationId
    (session_from_disk (files σ' !! _sessionPath (sessionKey_of ev)) now')
  = None.
Proof.
  intros E. apply _processMessage_resume_spec in E as (s & _ & [[_ [=]]|Hr]).
  destruct Hr as (text & cid & _ & _ & _ & _ & _ & [(msg & [=] & _)|(_ & _ & ->)]).
  rewrite lookup_insert_eq. simpl.
  rewrite recover_last_assistant by reflexivity. reflexivity.
Qed.

(** C6 (amended).  Two session keys get the same file exactly when they
    have the same length and, at every position, hold the same character
    or two characters that both end up as an underscore. *)
Theorem sessionPath_same_file (k1 k2 : jsstring) :
  _sessionPath k1 = _sessionPath k2
  ↔ Forall2 (λ c d, c = d ∨ (sanitize c = 95%N ∧ sanitize d = 95%N)) k1 k2.
Proof.
  unfold _sessionPath. split.
  - intros E. apply app_inv_tail in E. revert k2 E.
    induction k1 as [|c k1 IH]; intros [|d k2] E; try discriminate;
      [constructor|].
    injection E as Ec E. constructor; [|apply IH; exact E].
    unfold sanitize in *.
    destruct (safe_char c), (safe_char d); subst; auto.
  - intros HF. f_equal. induction HF as [|c d k1 k2 Hcd _ IH]; [reflexivity|].
    simpl. f_equal; [|exact IH].
    destruct Hcd as [->|[-> ->]]; reflexivity.
Qed.
End Steps.

Section Closed.
Import Examples.
Local Open Scope nat_scope.

Lemma reachable_state_after (config : Config) (acts : list action) :
  reachable config ∅ (state_after config acts).
Proof.
  unfold state_after. destruct (run config acts (init ∅)) as [σ|] eqn:E.
  - eapply reachable_run; [constructor | exact E].
  - constructor.
Qed.

(** The first message of a session fails at the agent; the second one
    of the session is processed and answered. *)
Lemma failure_does_not_poison_chain_witness :
  ∃ σ1 σ2 r2,
    step cfg (Resume 0 NotOk 1 None) (state_after cfg two_queued) = Some σ1
    ∧ promises σ1 !! 0%nat
      = Some (mkPromise (msg "m1") (Settled (Fulfilled None)))
    ∧ step cfg (Start 1 2) σ1 = Some σ2
    ∧ promises σ2 !! 1%nat = Some (mkPromise (msg "m2") (Running r2))
    ∧ ∃ σ3,
        step cfg (Resume 1 (answer "r2") 3 None) σ2 = Some σ3
        ∧ promises σ3 !! 1%nat
          = Some (mkPromise (msg "m2")
                    (Settled (Fulfilled (Some (mkReply (js "r2") ann))))).
Proof.
  destruct (failure_does_not_poison_chain cfg ∅ (state_after cfg two_queued)
              0 1 (msg "m1") (msg "m2") 0 NotOk None 1%Z 2%Z)
    as (σ1 & σ2 & r2 & E1 & HP1 & E2 & HP2 & _ & Hans).
  - apply reachable_state_after.
  - exact I.
  - vm_compute. discriminate.
  - vm_compute. reflexivity.
  - vm_compute. reflexivity.
  - left. exact I.
  - exists σ1, σ2, r2. repeat (split; [assumption|]).
    destruct (Hans (mkAgentData (Some (js "r2")) None None None None) (js "r2") 3%Z)
      as (σ3 & E3 & HP3 & _); [reflexivity|].
    exists σ3. split; assumption.
Defined.

(** In the state of [two_queued] the second message of the session is
    not started before the first has settled, and all three messages
    can run and settle. *)
Lemma per_key_fifo_witness :
  (∀ p q P Q,
     p < q → promises (state_after cfg two_queued) !! p = Some P →
     promises (state_after cfg two_queued) !! q = Some Q →
     key P = key Q → (∀ prev, state Q ≠ Waiting prev) →
     ∃ o, state P = Settled o)
  ∧ ∃ acts σ',
      follows (λ _, NotOk) (λ _, None) acts
      ∧ run cfg acts (state_after cfg two_queued) = Some σ'
      ∧ ∀ p, p < 3 → ORun p ∈ log σ' ∧ ∃ o, OSettle p o ∈ log σ'.
Proof.
  destruct (per_key_fifo cfg ∅ (state_after cfg two_queued)
              (reachable_state_after cfg two_queued))
    as (Hfifo & _ & _ & _ & Hlive).
  split; [exact Hfifo|].
  destruct (Hlive (λ _, NotOk) (λ _, None) 0%Z) as (acts & σ' & F & E & _ & Hall).
  exists acts, σ'. split; [exact F|]. split; [exact E | exact Hall].
Defined.

(** C3 (amended).  With [maxHistory] missing or not negative, the history
    is cut to [maxHistory] turns when the inbound turn has been pushed, so
    a unit of work holds at most that many turns during its agent call;
    the assistant turn is pushed after the cut, so a session file that the
    gateway has written holds at most [maxHistory + 1] turns.  With
    [maxHistory = 3], after five messages and their five answers the
    session file holds the last four turns. *)
Theorem persisted_history_bound :
  (∀ (config : Config) (disk : gmap (list N) FileContent) (σ : State),
     config_ok config → reachable config disk σ →
     (∀ p ev r s,
        promises σ !! p = Some (mkPromise ev (Running r)) →
        heap σ !! r = Some s →
        (Z.of_nat (length (history s)) ≤ effective_maxHistory config)%Z)
     ∧ (∀ path,
          files σ !! path = disk !! path
          ∨ ∃ h, files σ !! path = Some (Lines h)
                 ∧ (Z.of_nat (length h) ≤ effective_maxHistory config + 1)%Z))
  ∧ (map content <$> persisted (state_after cfg3 five_turns) ann)
    = Some [js "m4"; js "r4"; js "m5"; js "r5"].
Proof.
  split; [|vm_compute; reflexivity].
  intros config disk σ. apply history_bounds.
Qed.

(** With [maxHistory = 3], after five answered messages: the bound of
    four turns holds for the session file. *)
Lemma persisted_history_bound_witness :
  files (state_after cfg3 five_turns) !! _sessionPath ann
  = (∅ : gmap (list N) FileContent) !! _sessionPath ann
  ∨ ∃ h, files (state_after cfg3 five_turns) !! _sessionPath ann = Some (Lines h)
         ∧ (Z.of_nat (length h) ≤ effective_maxHistory cfg3 + 1)%Z.
Proof.
  apply (proj1 persisted_history_bound cfg3 ∅ (state_after cfg3 five_turns)).
  - unfold config_ok. simpl. lia.
  - apply reachable_state_after.
Defined.

(** C3, as stated, fails: with [maxHistory = 3], after five messages
    and their five answers the session file holds more than three
    turns. *)
Lemma five_turns_persist_four :
  maxHistory cfg3 = Some 3%Z
  ∧ ∃ h, persisted (state_after cfg3 five_turns) ann = Some h
         ∧ ¬ (length h ≤ 3).
Proof.
  split; [reflexivity|]. eexists. split; [vm_compute; reflexivity|].
  simpl. lia.
Qed.

(** The agent answers the first message with a status that is not ok. *)
Lemma failed_dispatch_keeps_memory_only_witness :
  ∃ σ',
    step cfg (Resume 0 NotOk 1 None) (state_after cfg two_queued) = Some σ'
    ∧ files σ' = files (state_after cfg two_queued)
    ∧ (∃ s, heap σ' !! 0%nat = Some s ∧ ends_with_inbound (msg "m1") s)
    ∧ promises σ' !! 0%nat
      = Some (mkPromise (msg "m1") (Settled (Fulfilled None))).
Proof.
  destruct (failed_dispatch_keeps_memory_only cfg ∅ (state_after cfg two_queued)
              0 (msg "m1") 0 NotOk 1%Z None)
    as (σ' & E & HF & _ & _ & Hs & HP & _).
  - apply reachable_state_after.
  - vm_compute. reflexivity.
  - exact I.
  - exists σ'. repeat (split; [assumption|]). exact HP.
Defined.

(** C4, as stated, fails: after a message whose agent call failed, the
    session has no file; the inbound turn is in memory only. *)
Lemma failed_dispatch_writes_nothing :
  persisted (state_after cfg failed_turn) ann = None
  ∧ files (state_after cfg failed_turn) = ∅
  ∧ (map content ∘ history <$> heap (state_after cfg failed_turn) !! 0%nat)
    = Some [js "m1"].
Proof. repeat split; vm_compute; reflexivity. Qed.

(** C5.  The loader recovers [T2] from a file whose assistant turns carry
    conversation ids.  But the gateway writes none: after a message
    answered with the conversation id [T1], the session in memory has
    it, the assistant turn in the file does not, and a session loaded
    from that file has no conversation id. *)
Theorem conversationId_lost_on_reload :
  session_conversationId (session_from_disk (Some (Lines file_with_ids)) 0)
  = Some (js "T2")
  ∧ (session_conversationId <$> heap (state_after cfg turn_with_id) !! 0%nat)
    = Some (Some (js "T1"))
  ∧ (map conversationId <$> persisted (state_after cfg turn_with_id) ann)
    = Some [None; None]
  ∧ session_conversationId
      (session_from_disk
         (files (state_after cfg turn_with_id) !! _sessionPath ann) 0)
    = None.
Proof. repeat split; vm_compute; reflexivity. Qed.

(** C6, as stated, fails: two web chat users, two sessions, one file. *)
Lemma sessionPath_collision :
  js "webchat:web_a.b" ≠ js "webchat:web_a_b"
  ∧ _sessionPath (js "webchat:web_a.b") = _sessionPath (js "webchat:web_a_b").
Proof. split; [vm_compute; discriminate | vm_compute; reflexivity]. Qed.
End Closed.

End GatewayProofs.

(** * More properties of the permission system *)

Module PolicyExtras.
Import Regex Permissions PolicyProofs.

Lemma includes_false (l : list jsstring) (k : jsstring) :
  includes l k = false ↔ k ∉ l.
Proof.
  unfold includes. induction l as [|x l IH]; simpl.
  - split; [intros _ H; inversion H | reflexivity].
  - rewrite orb_false_iff, IH, not_elem_of_cons. split.
    + intros [E H]. split; [|exact H]. intros ->. rewrite str_eqb_refl in E.
      discriminate.
    + intros [E H]. split; [apply str_eqb_neq; exact E | exact H].
Qed.

Lemma push_push (l : list jsstring) (k : jsstring) : push (push l k) k = push l k.
Proof.
  unfold push at 1. rewrite includes_push_same. reflexivity.
Qed.

Lemma push_NoDup (l : list jsstring) (k : jsstring) : NoDup l → NoDup (push l k).
Proof.
  intros Hl. unfold push. destruct (includes l k) eqn:E; [exact Hl|].
  apply NoDup_app. split; [exact Hl|]. split; [|apply NoDup_singleton].
  intros x Hx Hk. apply list_elem_of_singleton in Hk. subst x.
  apply includes_false in E. contradiction.
Qed.

(** ** White space around a command *)

Lemma drop_while_fixed (p : N → bool) (s : jsstring) :
  (∀ c s', s = c :: s' → p c = false) → drop_while p s = s.
Proof.
  destruct s as [|c s']; [reflexivity|]. intros H. simpl.
  rewrite (H c s' eq_refl). reflexivity.
Qed.

Lemma drop_while_head (p : N → bool) (s : jsstring) (c : N) (s' : jsstring) :
  drop_while p s = c :: s' → p c = false.
Proof.
  induction s as [|d s IH]; simpl; [discriminate|].
  destruct (p d) eqn:E; [exact IH|]. intros [= <- _]. exact E.
Qed.

Lemma drop_while_split (p : N → bool) (s : jsstring) :
  ∃ w, s = w ++ drop_while p s ∧ Forall (λ c, p c = true) w.
Proof.
  induction s as [|d s (w & Hw & HF)]; simpl.
  - exists []. split; [reflexivity | constructor].
  - destruct (p d) eqn:E.
    + exists (d :: w). split; [simpl; f_equal; exact Hw|]. constructor; assumption.
    + exists []. split; [reflexivity | constructor].
Qed.

Lemma drop_while_all (p : N → bool) (s : jsstring) :
  Forall (λ c, p c = true) s → drop_while p s = [].
Proof.
  induction 1 as [|c s Hc _ IH]; simpl; [reflexivity|]. rewrite Hc. exact IH.
Qed.

(** A trimmed string neither starts nor ends with white space. *)
Lemma trim_ends (s : jsstring) :
  (∀ c t, trim s = c :: t → is_space c = false)
  ∧ (∀ c t, rev (trim s) = c :: t → is_space c = false).
Proof.
  unfold trim. rewrite rev_involutive.
  set (u := drop_while is_space (rev (drop_while is_space s))).
  split; [|intros c t; apply drop_while_head].
  intros c t Hc.
  destruct (drop_while_split is_space (rev (drop_while is_space s)))
    as (w & Hw & _). fold u in Hw.
  apply (f_equal (@rev N)) in Hw. rewrite rev_involutive, rev_app_distr, Hc in Hw.
  simpl in Hw. eapply drop_while_head. exact Hw.
Qed.

Lemma trim_trim (s : jsstring) : trim (trim s) = trim s.
Proof.
  destruct (trim_ends s) as [Hhead Hlast].
  unfold trim at 1. rewrite (drop_while_fixed _ _ Hhead).
  rewrite (drop_while_fixed _ _ Hlast). apply rev_involutive.
Qed.

Lemma trim_blank (s : jsstring) :
  Forall (λ c, is_space c = true) s → trim s = [].
Proof.
  intros H. unfold trim. rewrite (drop_while_all _ _ H). reflexivity.
Qed.

Lemma bash_cmd_key_differs (c t : jsstring) : js "bash_cmd:" ++ c ≠ js "bash:" ++ t.
Proof. simpl. intros [=]. Qed.

Section Facts.
Variable JSON_stringify : jsobject → jsstring.

(** X1.  Recording the same decision twice is the same as recording it
    once, and the arrays of decisions stay free of duplicates. *)
Theorem approve_idempotent (a : Approvals) (toolName : jsstring)
    (input : jsobject) (allow : bool) :
  approve JSON_stringify (approve JSON_stringify a toolName input allow)
    toolName input allow
  = approve JSON_stringify a toolName input allow
  ∧ (NoDup (allowed a) → NoDup (denied a) →
     NoDup (allowed (approve JSON_stringify a toolName input allow))
     ∧ NoDup (denied (approve JSON_stringify a toolName input allow))).
Proof.
  unfold approve. split.
  - destruct allow; simpl; rewrite push_push; reflexivity.
  - intros Ha Hd. destruct allow; simpl; split;
      try assumption; apply push_NoDup; assumption.
Qed.

(** X2.  For a tool that is neither safe nor moderate nor bash, a decision
    that is recorded is the answer to the same request afterwards: without
    a record the request needs approval, after an approval it is allowed,
    and after a denial it is denied unless it had been approved before. *)
Theorem decision_round_trip (a : Approvals) (toolName : jsstring)
    (input : jsobject) :
  includes SAFE_TOOLS toolName = false →
  includes MODERATE_TOOLS toolName = false →
  toolName ≠ js "bash" →
  let key := toolName ++ js ":" ++ JSON_stringify input in
  (includes (allowed a) key = false → includes (denied a) key = false →
   check JSON_stringify a toolName input = Return NeedsApproval)
  ∧ check JSON_stringify (approve JSON_stringify a toolName input true)
      toolName input = Return Allowed
  ∧ (includes (allowed a) key = false →
     check JSON_stringify (approve JSON_stringify a toolName input false)
       toolName input = Return Denied).
Proof.
  intros Hs Hm Hb key.
  assert (Hcheck : ∀ a', check JSON_stringify a' toolName input
                         = Return (_checkApproval JSON_stringify a' toolName input)).
  { intros a'. unfold check. rewrite Hs, Hm, (str_eqb_neq _ _ Hb).
    destruct (str_eqb toolName (js "kill_process")); reflexivity. }
  assert (Hkey : approve_key JSON_stringify toolName input = key).
  { unfold approve_key. rewrite (str_eqb_neq _ _ Hb). reflexivity. }
  rewrite !Hcheck. unfold _checkApproval, approve. rewrite Hkey. fold key.
  cbn [allowed denied]. split; [|split].
  - intros -> ->. reflexivity.
  - rewrite includes_push_same. reflexivity.
  - intros ->. rewrite includes_push_same. reflexivity.
Qed.

(** X3.  After [approveCommand] for the first word of a command, every
    command that starts with that word and matches no danger pattern is
    allowed, even one that had been denied as a whole. *)
Theorem approveCommand_allows (a : Approvals) (input : jsobject)
    (cmd : jsstring) :
  get input (js "command") = JStr cmd → cmd ≠ [] →
  is_dangerous (trim cmd) = false →
  check JSON_stringify (approveCommand a (split_ws_first (trim cmd)))
    (js "bash") input
  = Return Allowed.
Proof.
  intros Hc Hne Hd. rewrite (check_bash_string _ _ _ _ Hc Hne).
  unfold _checkBash_string, approveCommand. cbv zeta. cbn [allowed denied].
  rewrite Hd, includes_push_same.
  destruct (_ || _); reflexivity.
Qed.

(** X4.  [approveCommand] does not reach the danger patterns: the answer
    to a command that matches one is the same before and after, whatever
    word was approved. *)
Theorem approveCommand_keeps_danger (a : Approvals) (word : jsstring)
    (input : jsobject) (cmd : jsstring) :
  get input (js "command") = JStr cmd →
  is_dangerous (trim cmd) = true →
  check JSON_stringify (approveCommand a word) (js "bash") input
  = check JSON_stringify a (js "bash") input.
Proof.
  intros Hc Hd.
  assert (Hne : cmd ≠ []).
  { intros ->. rewrite trim_nil, not_dangerous_nil in Hd. discriminate. }
  rewrite !(check_bash_string _ _ _ _ Hc Hne).
  unfold _checkBash_string, approveCommand. cbv zeta. cbn [allowed denied].
  rewrite Hd, includes_push_other; [reflexivity|].
  intros E. symmetry in E. exact (bash_cmd_key_differs _ _ E).
Qed.

(** X5.  White space around a command does not count: a command that is
    not blank gets the answer of its trimmed text. *)
Theorem check_ignores_outer_space (a : Approvals) (input input' : jsobject)
    (cmd : jsstring) :
  get input (js "command") = JStr cmd →
  get input' (js "command") = JStr (trim cmd) →
  trim cmd ≠ [] →
  check JSON_stringify a (js "bash") input
  = check JSON_stringify a (js "bash") input'.
Proof.
  intros Hc Hc' Hne.
  assert (Hne' : cmd ≠ []) by (intros ->; apply Hne; reflexivity).
  rewrite (check_bash_string _ _ _ _ Hc Hne'), (check_bash_string _ _ _ _ Hc' Hne).
  unfold _checkBash_string. rewrite trim_trim. reflexivity.
Qed.

(** X6.  A command of white space only is not denied like the empty
    command: it is looked up as the empty command text, under the keys
    [bash_cmd:] and [bash:], and needs approval when there is no record. *)
Theorem blank_command_needs_decision (a : Approvals) (input : jsobject)
    (cmd : jsstring) :
  get input (js "command") = JStr cmd → cmd ≠ [] →
  Forall (λ c, is_space c = true) cmd →
  check JSON_stringify a (js "bash") input
  = Return (if includes (allowed a) (js "bash_cmd:") then Allowed
            else if includes (allowed a) (js "bash:") then Allowed
            else if includes (denied a) (js "bash:") then Denied
            else NeedsApproval).
Proof.
  intros Hc Hne Hb. rewrite (check_bash_string _ _ _ _ Hc Hne).
  unfold _checkBash_string. rewrite (trim_blank _ Hb). cbv zeta.
  replace (split_ws_first []) with (@nil N) by reflexivity.
  replace (includes SAFE_COMMANDS []) with false by (vm_compute; reflexivity).
  rewrite not_dangerous_nil.
  replace (includes commonCommands []) with false by (vm_compute; reflexivity).
  rewrite !app_nil_r. reflexivity.
Qed.

(** X7.  After a denial is recorded for a bash command (given without
    white space around it), the same request never needs approval again:
    it is denied, unless the command is on the safe list or it, or for a
    command without danger pattern its first word, has been approved, in
    which case it is allowed.  So a denial also stops a common developer
    command that was allowed by default. *)
Theorem denial_of_command (a : Approvals) (input : jsobject) (cmd : jsstring) :
  get input (js "command") = JStr cmd → cmd ≠ [] → trim cmd = cmd →
  let safe := includes SAFE_COMMANDS (split_ws_first cmd)
              || includes SAFE_COMMANDS cmd in
  let approved :=
    includes (allowed a) (js "bash:" ++ cmd)
    || (negb (is_dangerous cmd)
        && includes (allowed a) (js "bash_cmd:" ++ split_ws_first cmd)) in
  check JSON_stringify (approve JSON_stringify a (js "bash") input false)
    (js "bash") input
  = Return (if safe || approved then Allowed else Denied).
Proof.
  intros Hc Hne Ht safe approved.
  assert (Hkey : approve_key JSON_stringify (js "bash") input = js "bash:" ++ cmd).
  { unfold approve_key. rewrite str_eqb_refl, Hc. reflexivity. }
  rewrite (check_bash_string _ _ _ _ Hc Hne).
  unfold _checkBash_string, approve. cbv zeta. rewrite Hkey, Ht.
  cbn [allowed denied]. rewrite includes_push_same.
  subst safe approved.
  destruct (includes SAFE_COMMANDS (split_ws_first cmd) || includes SAFE_COMMANDS cmd);
    [reflexivity|].
  destruct (is_dangerous cmd), (includes (allowed a) (js "bash:" ++ cmd)),
    (includes (allowed a) (js "bash_cmd:" ++ split_ws_first cmd)); reflexivity.
Qed.
End Facts.

Section Closed.
Import Examples.

(** Approving the same [kill_process] request twice, from no records. *)
Lemma approve_idempotent_witness :
  approve Json.stringify
    (approve Json.stringify no_approvals (js "kill_process") kill_input true)
    (js "kill_process") kill_input true
  = approve Json.stringify no_approvals (js "kill_process") kill_input true
  ∧ NoDup (allowed (approve Json.stringify no_approvals (js "kill_process")
                      kill_input true))
  ∧ NoDup (denied (approve Json.stringify no_approvals (js "kill_process")
                     kill_input true)).
Proof.
  destruct (approve_idempotent Json.stringify no_approvals (js "kill_process")
              kill_input true) as [H1 H2].
  split; [exact H1|]. apply H2; apply NoDup_nil_2.
Defined.

(** A [kill_process] request, from no records. *)
Lemma decision_round_trip_witness :
  check Json.stringify no_approvals (js "kill_process") kill_input
  = Return NeedsApproval
  ∧ check Json.stringify
      (approve Json.stringify no_approvals (js "kill_process") kill_input true)
      (js "kill_process") kill_input
    = Return Allowed
  ∧ check Json.stringify
      (approve Json.stringify no_approvals (js "kill_process") kill_input false)
      (js "kill_process") kill_input
    = Return Denied.
Proof.
  destruct (decision_round_trip Json.stringify no_approvals (js "kill_process")
              kill_input) as (H1 & H2 & H3).
  - vm_compute. reflexivity.
  - vm_compute. reflexivity.
  - vm_compute. discriminate.
  - split; [apply H1; reflexivity|]. split; [exact H2|]. apply H3. reflexivity.
Defined.

(** [terraform plan] had been denied; then [terraform] is approved. *)
Lemma approveCommand_allows_witness :
  check Json.stringify
    (approveCommand (mkApprovals [] [js "bash:terraform plan"])
       (split_ws_first (trim (js "terraform plan"))))
    (js "bash") (bash_input "terraform plan")
  = Return Allowed.
Proof.
  apply (approveCommand_allows Json.stringify
           (mkApprovals [] [js "bash:terraform plan"])
           (bash_input "terraform plan") (js "terraform plan")).
  - reflexivity.
  - vm_compute. discriminate.
  - vm_compute. reflexivity.
Defined.

(** Approving [rm] changes nothing for [rm -rf /tmp/x]. *)
Lemma approveCommand_keeps_danger_witness :
  check Json.stringify (approveCommand no_approvals (js "rm")) (js "bash")
    (bash_input "rm -rf /tmp/x")
  = check Json.stringify no_approvals (js "bash") (bash_input "rm -rf /tmp/x").
Proof.
  apply (approveCommand_keeps_danger Json.stringify no_approvals (js "rm")
           (bash_input "rm -rf /tmp/x") (js "rm -rf /tmp/x")).
  - reflexivity.
  - vm_compute. reflexivity.
Defined.

Lemma check_ignores_outer_space_witness :
  check Json.stringify no_approvals (js "bash") (bash_input "  terraform plan ")
  = check Json.stringify no_approvals (js "bash") (bash_input "terraform plan").
Proof.
  apply (check_ignores_outer_space Json.stringify no_approvals
           (bash_input "  terraform plan ") (bash_input "terraform plan")
           (js "  terraform plan ")).
  - reflexivity.
  - vm_compute. reflexivity.
  - vm_compute. discriminate.
Defined.

(** Three spaces, from no records. *)
Lemma blank_command_needs_decision_witness :
  check Json.stringify no_approvals (js "bash") (bash_input "   ")
  = Return NeedsApproval.
Proof.
  apply (blank_command_needs_decision Json.stringify no_approvals
           (bash_input "   ") (js "   ")).
  - reflexivity.
  - vm_compute. discriminate.
  - repeat constructor.
Defined.

(** [npm test] is allowed by default and denied once a denial is
    recorded. *)
Lemma denial_of_command_witness :
  check Json.stringify no_approvals (js "bash") (bash_input "npm test")
  = Return Allowed
  ∧ check Json.stringify
      (approve Json.stringify no_approvals (js "bash") (bash_input "npm test")
         false)
      (js "bash") (bash_input "npm test")
    = Return Denied.
Proof.
  split; [vm_compute; reflexivity|].
  apply (denial_of_command Json.stringify no_approvals (bash_input "npm test")
           (js "npm test")).
  - reflexivity.
  - vm_compute. discriminate.
  - vm_compute. reflexivity.
Defined.

End Closed.

End PolicyExtras.

(** * More properties of the gateway *)

Module GatewayExtras.
Import Gateway Invariants Request GatewayProofs.

Open Scope nat_scope.

Lemma length_slice {A} (k : Z) (l : list A) :
  (k < 0)%Z → (Z.of_nat (length (slice k l)) ≤ - k)%Z.
Proof.
  intros Hk. unfold slice. rewrite length_drop.
  destruct (Z.ltb_spec k 0); lia.
Qed.

Lemma slice_snoc {A} (k : Z) (l : list A) (x : A) :
  (k < 0)%Z → ∃ l', slice k (l ++ [x]) = l' ++ [x].
Proof.
  intros Hk. unfold slice. set (n := Z.to_nat _).
  assert (Hn : n ≤ length l).
  { unfold n. rewrite length_app. simpl.
    destruct (Z.ltb_spec k 0); lia. }
  exists (drop n l). apply drop_app_le. exact Hn.
Qed.

Lemma ends_with_spec (s suffix : jsstring) :
  ends_with s suffix = true ↔ ∃ p, s = p ++ suffix.
Proof.
  unfold ends_with. rewrite PolicyProofs.str_eqb_eq. split.
  - set (n := length s - length suffix). intros E. exists (take n s).
    rewrite <- E. symmetry. apply take_drop.
  - intros [p ->]. rewrite length_app.
    replace (length p + length suffix - length suffix) with (length p) by lia.
    apply drop_app_length.
Qed.

Section Steps.
Variable config : Config.

(** X8.  In every state the gateway gets into, the request of a unit of
    work that is at its agent call can be built; its message is the text
    of the inbound event, its history holds at most ten role/content
    pairs, and the last of them is the inbound user turn. *)
Theorem request_carries_inbound (disk : gmap (list N) FileContent)
    (σ : State) (p : nat) (ev : Event) (r : nat) (s : Session)
    (chatName : option jsstring) :
  reachable config disk σ →
  promises σ !! p = Some (mkPromise ev (Running r)) →
  heap σ !! r = Some s →
  ∃ body,
    _callAgent_body ev chatName s = Some body
    ∧ body_message body = ev_text ev
    ∧ length (body_history body) ≤ 10
    ∧ last (body_history body) = Some (js "user", ev_text ev).
Proof.
  intros Hr HP Hs. destruct (reachable_inv config disk σ Hr) as (_ & _ & _ & D).
  destruct (run_inbound config disk σ D p ev r HP) as (s' & Hs' & h & t & Hh & Hrole & Hc).
  rewrite Hs in Hs'. injection Hs' as <-.
  unfold _callAgent_body. rewrite Hh, last_snoc.
  eexists. split; [reflexivity|]. simpl. split; [exact Hc|]. split.
  - rewrite length_map.
    pose proof (length_slice (-10) (h ++ [t]) ltac:(lia)). lia.
  - destruct (slice_snoc (-10) h t ltac:(lia)) as [l' ->].
    rewrite map_app. simpl. rewrite last_snoc, Hrole, Hc. reflexivity.
Qed.

(** X9.  A slash at the end of the endpoint makes no difference to the
    address of the request, which ends with [/?route=chat]. *)
Theorem url_trailing_slash (endpoint : jsstring) :
  ends_with endpoint (js "/") = false →
  _callAgent_url (endpoint ++ js "/") = _callAgent_url endpoint
  ∧ _callAgent_url endpoint = endpoint ++ js "/?route=chat".
Proof.
  intros Hl. unfold _callAgent_url. rewrite Hl.
  rewrite (proj2 (ends_with_spec (endpoint ++ js "/") (js "/")))
    by (exists endpoint; reflexivity).
  rewrite <- app_assoc. split; reflexivity.
Qed.

Lemma resolve_endpoint_none (channel : jsstring) :
  no_endpoint config → resolve_endpoint config channel = [].
Proof.
  intros [He Hc]. unfold resolve_endpoint.
  destruct (channels config !! channel) as [[|c e]|] eqn:E; try exact He.
  apply Hc in E. discriminate.
Qed.

(** X10.  When no endpoint can be resolved for any channel, the gateway
    never calls the agent and never writes a file: in every state it gets
    into the files are those it started with, and every promise is waiting
    or fulfilled with [null]. *)
Theorem no_endpoint_no_effect (disk : gmap (list N) FileContent) (σ : State) :
  no_endpoint config → reachable config disk σ →
  files σ = disk
  ∧ ∀ p ev st, promises σ !! p = Some (mkPromise ev st) →
               (∃ prev, st = Waiting prev) ∨ st = Settled (Fulfilled None).
Proof.
  intros Hno. induction 1 as [|a σ σ' Hr [IHf IHp] Hstep].
  - split; [reflexivity|]. intros p ev st H. discriminate.
  - assert (Hupd : ∀ p ev st st',
              promises σ !! p = Some (mkPromise ev st) →
              promises σ' = <[p := mkPromise ev st']> (promises σ) →
              (∃ prev, st' = Waiting prev) ∨ st' = Settled (Fulfilled None) →
              ∀ q evq stq, promises σ' !! q = Some (mkPromise evq stq) →
                (∃ prev, stq = Waiting prev) ∨ stq = Settled (Fulfilled None)).
    { intros p ev st st' HP HP' Hst' q evq stq HQ. rewrite HP' in HQ.
      eapply update_lookup in HQ as [[_ [= _ ->]]|[_ HQ]]; [exact Hst'| |exact HP].
      eapply IHp. exact HQ. }
    apply step_effect in Hstep.
    destruct Hstep as
      [ev ->
      |p ev prev msg HP HO ->
      |p ev prev o now σ1 r s st' HP HO EL EH Hst HS' HH' HF' HP'
      |p ev r HP HS' HH' HF' HP'
      |p ev r s text cid now o HP EH HS' HH' HF' HP'
      |now maxAge ->].
    + split; [exact IHf|]. intros q evq stq HQ. simpl in HQ.
      apply lookup_snoc_Some in HQ as [[_ HQ]|[_ [= _ <-]]]; eauto.
    + split; [exact IHf|]. eapply Hupd; [exact HP | reflexivity | tauto].
    + split; [rewrite HF'; exact IHf|].
      eapply Hupd; [exact HP | exact HP' |].
      destruct Hst as [->|(_ & _ & Hep)]; [tauto|].
      exfalso. apply Hep. apply resolve_endpoint_none. exact Hno.
    + exfalso. destruct (IHp p ev _ HP) as [[prev [=]]|[=]].
    + exfalso. destruct (IHp p ev _ HP) as [[prev [=]]|[=]].
    + split; [exact IHf | exact IHp].
Qed.

(** X11.  With [maxHistory] missing or not negative, no session object in
    memory ever holds more than [maxHistory + 1] turns, however long the
    session file it was loaded from is. *)
Theorem memory_history_bound (disk : gmap (list N) FileContent) (σ : State) :
  config_ok config → reachable config disk σ →
  ∀ r s, heap σ !! r = Some s →
         (Z.of_nat (length (history s)) ≤ effective_maxHistory config + 1)%Z.
Proof.
  intros Hok. induction 1 as [|a σ σ' Hr IH Hstep]; [intros r s H; discriminate|].
  destruct (reachable_inv config disk σ Hr) as (_ & _ & _ & D).
  apply step_effect in Hstep.
  destruct Hstep as
    [ev ->
    |p ev prev msg HP HO ->
    |p ev prev o now σ1 r s st' HP HO EL EH Hst HS' HH' HF' HP'
    |p ev r HP HS' HH' HF' HP'
    |p ev r s text cid now o HP EH HS' HH' HF' HP'
    |now maxAge ->]; try exact IH.
  - intros r' s' Hs'. rewrite HH' in Hs'.
    apply list_lookup_insert_Some in Hs' as [(_ & <- & _)|[Hne Hs']].
    + simpl. pose proof (truncate_length config (history s ++ [user_turn ev now]) Hok).
      lia.
    + apply _loadSession_spec in EL as [[_ ->]|(_ & -> & ->)]; [eauto|].
      simpl in Hs'. apply lookup_app_Some in Hs' as [Hs'|[Hge Hs']]; [eauto|].
      apply list_lookup_singleton_Some in Hs' as [Hz _]. lia.
  - rewrite HH'. exact IH.
  - intros r' s' Hs'. rewrite HH' in Hs'.
    apply list_lookup_insert_Some in Hs' as [(_ & <- & _)|[Hne Hs']]; [|eauto].
    simpl. rewrite length_app. simpl.
    pose proof (run_bound config disk σ D Hok p ev r s HP EH). lia.
Qed.

(** X12.  A step writes a file only when it gives a reply, and the other
    way round.  A step that is not the end of an agent call with a reply
    and a write that works leaves the files and the replies as they are.
    Such an end writes one file, that of the key of the event: its last two
    lines are the inbound turn and the reply, which is what the promise
    is fulfilled with, and the session in memory has the same history. *)
Theorem write_iff_reply (disk : gmap (list N) FileContent) (a : action)
    (σ σ' : State) :
  reachable config disk σ → step config a σ = Some σ' →
  (files σ' = files σ
   ∧ ∀ q ev rep,
       promises σ' !! q = Some (mkPromise ev (Settled (Fulfilled (Some rep)))) →
       promises σ !! q = Some (mkPromise ev (Settled (Fulfilled (Some rep)))))
  ∨ ∃ p fo now ev r h t text,
      a = Resume p fo now None
      ∧ promises σ !! p = Some (mkPromise ev (Running r))
      ∧ role t = js "user" ∧ content t = ev_text ev
      ∧ files σ'
        = <[_sessionPath (sessionKey_of ev) :=
              Lines (h ++ [t; assistant_turn text now])]> (files σ)
      ∧ promises σ' !! p
        = Some (mkPromise ev
                  (Settled (Fulfilled (Some (mkReply text (sessionKey_of ev))))))
      ∧ sessions σ' !! sessionKey_of ev = Some r
      ∧ history <$> heap σ' !! r = Some (h ++ [t; assistant_turn text now]).
Proof.
  intros Hr Hstep. destruct (reachable_inv config disk σ Hr) as (_ & _ & H & D).
  assert (Hkeep : ∀ p ev st v,
            promises σ !! p = Some (mkPromise ev st) → (∀ o, st ≠ Settled o) →
            ∀ q evq rep,
              (<[p := mkPromise ev v]> (promises σ)) !! q
              = Some (mkPromise evq (Settled (Fulfilled (Some rep)))) →
              (v = Settled (Fulfilled (Some rep)) ∧ q = p)
              ∨ promises σ !! q
                = Some (mkPromise evq (Settled (Fulfilled (Some rep))))).
  { intros p ev st v HP Hst q evq rep HQ.
    eapply update_lookup in HQ as [[-> [= -> ->]]|[_ HQ]]; [| |exact HP]; eauto. }
  destruct a as [ev|p now|p fo now w|now maxAge]; simpl in Hstep.
  - injection Hstep as <-. left. split; [reflexivity|].
    intros q evq rep HQ. simpl in HQ.
    apply lookup_snoc_Some in HQ as [[_ HQ]|[_ [=]]]. exact HQ.
  - destruct (promises σ !! p) as [[ev [prev|r|o]]|] eqn:HP; try discriminate.
    destruct (prev_outcome σ prev) as [[v0|msg]|]; try discriminate.
    + destruct (_processMessage_begin config σ ev now) as [[σ2 pr]|] eqn:EB;
        [|discriminate].
      apply _processMessage_begin_spec in EB as (σ1 & r & s & EL & _ & -> & Hpr).
      assert (Hsame : promises σ1 = promises σ ∧ files σ1 = files σ)
        by (apply _loadSession_spec in EL as [[_ ->]|(_ & _ & ->)];
            split; reflexivity).
      destruct Hsame as [HP1 HF1].
      destruct Hpr as [->|(-> & _)]; injection Hstep as <-; left; simpl;
        rewrite HP1; (split; [exact HF1|]); intros q evq rep HQ;
        (eapply Hkeep in HQ as [[[=] _]|HQ];
         [exact HQ | exact HP | intros o; discriminate]).
    + injection Hstep as <-. left. split; [reflexivity|].
      intros q evq rep HQ. simpl in HQ.
      eapply Hkeep in HQ as [[[=] _]|HQ];
        [exact HQ | exact HP | intros o; discriminate].
  - destruct (promises σ !! p) as [[ev [prev|r|o]]|] eqn:HP; try discriminate.
    destruct (_processMessage_resume σ ev r fo now w) as [[σ1 o]|] eqn:ER;
      [|discriminate].
    injection Hstep as <-.
    apply _processMessage_resume_spec in ER as (s & EH & [[-> ->]|Hres]).
    + left. split; [reflexivity|]. intros q evq rep HQ. simpl in HQ.
      eapply Hkeep in HQ as [[[=] _]|HQ];
        [exact HQ | exact HP | intros o; discriminate].
    + destruct Hres as (text & cid & HS & HH & _ & HP1 & _ & Hw).
      destruct Hw as [(msg & -> & -> & HF)|(-> & -> & HF)].
      * left. split; [exact HF|]. intros q evq rep HQ. simpl in HQ.
        rewrite HP1 in HQ.
        eapply Hkeep in HQ as [[[=] _]|HQ];
          [exact HQ | exact HP | intros o; discriminate].
      * right.
        destruct (run_inbound config disk σ D p ev r HP)
          as (s' & Hs' & h & t & Hh & Hrole & Hc).
        rewrite EH in Hs'. injection Hs' as <-.
        exists p, fo, now, ev, r, h, t, text.
        split; [reflexivity|]. split; [exact HP|].
        split; [exact Hrole|]. split; [exact Hc|].
        simpl in HF. rewrite Hh, <- app_assoc in HF. simpl in HF.
        split; [exact HF|]. simpl. rewrite HP1, HS, HH.
        split; [apply list_lookup_insert_eq; eapply lookup_lt_Some; exact HP|].
        split; [apply lookup_insert_eq|].
        rewrite list_lookup_insert_eq by (eapply lookup_lt_Some; exact EH).
        simpl. rewrite Hh, <- app_assoc. reflexivity.
  - injection Hstep as <-. left. split; [reflexivity|].
    intros q evq rep HQ. exact HQ.
Qed.

(** The end of an agent call with a reply, when the write works. *)
Lemma resume_with_reply (σ : State) (p : nat) (ev : Event) (r : nat)
    (s : Session) (data : AgentData) (text : jsstring) (now : Z) :
  promises σ !! p = Some (mkPromise ev (Running r)) →
  heap σ !! r = Some s →
  first_truthy [data_reply data; data_response data; data_text data] = Some text →
  ∃ σ',
    step config (Resume p (Json data) now None) σ = Some σ'
    ∧ sessions σ' = <[sessionKey_of ev := r]> (sessions σ)
    ∧ files σ' = <[_sessionPath (sessionKey_of ev) :=
                     Lines (history s ++ [assistant_turn text now])]> (files σ)
    ∧ promises σ' = <[p := mkPromise ev
                             (Settled (Fulfilled
                                (Some (mkReply text (sessionKey_of ev)))))]>
                      (promises σ).
Proof.
  intros HP EH Hft. pose proof (first_truthy_nonempty _ _ Hft) as Hne.
  destruct text as [|c t]; [contradiction|].
  simpl. rewrite HP. unfold _processMessage_resume. rewrite EH.
  unfold _callAgent_finish. cbn [agent_reply]. rewrite Hft.
  eexists. split; [reflexivity|]. simpl. repeat split.
Qed.

(** X13.  A session that is not in memory is built from its file: the
    unit of work holds the turns of the file and the inbound turn, cut to
    [maxHistory], and the conversation id of the last assistant turn of
    the file; a file that is missing or does not parse counts as no
    turns.  The file that the reply then writes holds that history and
    the assistant turn, so it replaces a file that did not parse. *)
Theorem cold_session_from_file (σ : State)
    (p : nat) (ev : Event) (prev : option nat) (v : option Reply) (now : Z) :
  config_ok config →
  resolve_endpoint config (ev_channel ev) ≠ [] →
  promises σ !! p = Some (mkPromise ev (Waiting prev)) →
  prev_outcome σ prev = Some (Fulfilled v) →
  sessions σ !! sessionKey_of ev = None →
  let h0 := file_history (files σ !! _sessionPath (sessionKey_of ev)) in
  let h := truncate config (h0 ++ [user_turn ev now]) in
  ∃ σ1 r,
    step config (Start p now) σ = Some σ1
    ∧ promises σ1 !! p = Some (mkPromise ev (Running r))
    ∧ sessions σ1 !! sessionKey_of ev = Some r
    ∧ heap σ1 !! r = Some (mkSession h (recover_conversationId h0) now)
    ∧ ∀ data text now',
        first_truthy [data_reply data; data_response data; data_text data]
        = Some text →
        ∃ σ2,
          step config (Resume p (Json data) now' None) σ1 = Some σ2
          ∧ files σ2 !! _sessionPath (sessionKey_of ev)
            = Some (Lines (h ++ [assistant_turn text now'])).
Proof.
  intros Hok Hep HP HO Hnone h0 h.
  assert (Hload : session_from_disk (files σ !! _sessionPath (sessionKey_of ev)) now
                  = mkSession h0 (recover_conversationId h0) now).
  { subst h0. destruct (files σ !! _sessionPath (sessionKey_of ev)) as [[h'|]|];
      reflexivity. }
  assert (Hne : h ≠ []) by (apply truncate_nonempty; exact Hok).
  pose proof (lookup_lt_Some _ _ _ HP) as Hp.
  assert (E1 : ∃ σ1, step config (Start p now) σ = Some σ1
                ∧ promises σ1 = <[p := mkPromise ev (Running (length (heap σ)))]>
                                  (promises σ)
                ∧ sessions σ1 = <[sessionKey_of ev := length (heap σ)]> (sessions σ)
                ∧ heap σ1 = <[length (heap σ) :=
                                mkSession h (recover_conversationId h0) now]>
                              (heap σ ++ [mkSession h0 (recover_conversationId h0) now])).
  { simpl. rewrite HP, HO. unfold _processMessage_begin, _loadSession.
    rewrite Hnone, Hload. cbn [heap].
    rewrite lookup_app_r, Nat.sub_diag by lia. cbn [lookup list_lookup history].
    fold h.
    destruct (resolve_endpoint config (ev_channel ev)) as [|c e]; [contradiction|].
    destruct h as [|t h'] eqn:Eh; [contradiction|].
    eexists. split; [reflexivity|]. simpl. repeat split. }
  destruct E1 as (σ1 & E1 & HP1 & HS1 & HH1).
  assert (Hs1 : heap σ1 !! length (heap σ)
                = Some (mkSession h (recover_conversationId h0) now)).
  { rewrite HH1. apply list_lookup_insert_eq. rewrite length_app. simpl. lia. }
  assert (HPr : promises σ1 !! p = Some (mkPromise ev (Running (length (heap σ)))))
    by (rewrite HP1; apply list_lookup_insert_eq; exact Hp).
  exists σ1, (length (heap σ)). split; [exact E1|]. split; [exact HPr|].
  split; [rewrite HS1; apply lookup_insert_eq|]. split; [exact Hs1|].
  intros data text now' Hft.
  destruct (resume_with_reply σ1 p ev _ _ data text now' HPr Hs1 Hft)
    as (σ2 & E2 & _ & HF2 & _).
  exists σ2. split; [exact E2|]. rewrite HF2. apply lookup_insert_eq.
Qed.

(** X14.  [cleanExpiredSessions] keeps the sessions that have not expired
    and no others, and it loses nothing of a unit of work that is at its
    agent call: when the call ends with a reply, the session object of
    the unit is put back under its key and its history is written with
    the assistant turn, whether or not the session was swept meanwhile. *)
Theorem eviction_during_call (σ : State)
    (p : nat) (ev : Event) (r : nat) (s : Session) (now maxAge : Z)
    (data : AgentData) (text : jsstring) (now' : Z) :
  promises σ !! p = Some (mkPromise ev (Running r)) →
  heap σ !! r = Some s →
  first_truthy [data_reply data; data_response data; data_text data] = Some text →
  (∀ K r', sessions (cleanExpiredSessions σ now maxAge) !! K = Some r'
           ↔ sessions σ !! K = Some r' ∧ expired σ now maxAge r' = false)
  ∧ ∃ σ2,
      step config (Resume p (Json data) now' None)
        (cleanExpiredSessions σ now maxAge) = Some σ2
      ∧ sessions σ2 !! sessionKey_of ev = Some r
      ∧ files σ2 !! _sessionPath (sessionKey_of ev)
        = Some (Lines (history s ++ [assistant_turn text now']))
      ∧ promises σ2 !! p
        = Some (mkPromise ev
                  (Settled (Fulfilled (Some (mkReply text (sessionKey_of ev)))))).
Proof.
  intros HP EH Hft. split.
  - intros K r'. simpl. rewrite map_lookup_filter_Some. reflexivity.
  - destruct (resume_with_reply (cleanExpiredSessions σ now maxAge) p ev r s
                data text now' HP EH Hft) as (σ2 & E2 & HS2 & HF2 & HP2).
    exists σ2. split; [exact E2|]. rewrite HS2, HF2, HP2.
    split; [apply lookup_insert_eq|]. split; [apply lookup_insert_eq|].
    apply list_lookup_insert_eq. eapply lookup_lt_Some. exact HP.
Qed.

(** X15.  With a negative [maxHistory] the cut drops the oldest
    [-maxHistory] turns, whatever the length: a message to a session with
    fewer turns than that empties the history and is dropped without a
    request to the agent. *)
Theorem negative_maxHistory_drops (σ σ1 : State) (ev : Event) (now m : Z)
    (r : nat) (s : Session) :
  maxHistory config = Some m → (m < 0)%Z →
  (∀ h, truncate config h = drop (Z.to_nat (- m)) h)
  ∧ (_loadSession σ (sessionKey_of ev) now = (σ1, r) →
     heap σ1 !! r = Some s →
     (Z.of_nat (length (history s)) < - m)%Z →
     ∃ σ2,
       _processMessage_begin config σ ev now = Some (σ2, Done (Fulfilled None))
       ∧ history <$> heap σ2 !! r = Some []).
Proof.
  intros Hm Hneg.
  assert (Heff : effective_maxHistory config = m).
  { unfold effective_maxHistory. rewrite Hm. destruct (Z.eqb_spec m 0); [lia|].
    reflexivity. }
  assert (Htr : ∀ h, truncate config h = drop (Z.to_nat (- m)) h).
  { intros h. unfold truncate, slice. rewrite Heff.
    destruct (Z.gtb_spec (Z.of_nat (length h)) m); [|lia].
    destruct (Z.ltb_spec (- m) 0); [lia|].
    destruct (Z.min_spec (- m) (Z.of_nat (length h))) as [[_ ->]|[Hle ->]];
      [reflexivity|].
    rewrite Nat2Z.id, !drop_ge by lia. reflexivity. }
  split; [exact Htr|]. intros EL EH Hlen.
  unfold _processMessage_begin. rewrite EL, EH, Htr.
  rewrite drop_ge by (rewrite length_app; simpl; lia).
  eexists. split.
  - destruct (resolve_endpoint config (ev_channel ev)); reflexivity.
  - simpl. rewrite list_lookup_insert_eq by (eapply lookup_lt_Some; exact EH).
    reflexivity.
Qed.

(** X16.  [this.locks] is never cleared: in every state the gateway gets
    into it has an entry for exactly the keys that [handleMessage] was
    called for, and the entry of a key is the promise of the last call
    for it. *)
Theorem locks_hold_last_promise (disk : gmap (list N) FileContent)
    (σ : State) (K : jsstring) :
  reachable config disk σ →
  (locks σ !! K = None ↔ ∀ q Q, promises σ !! q = Some Q → key Q ≠ K)
  ∧ (∀ q0, locks σ !! K = Some q0 →
           (∃ Q0, promises σ !! q0 = Some Q0 ∧ key Q0 = K)
           ∧ ∀ q Q, q0 < q → promises σ !! q = Some Q → key Q ≠ K).
Proof.
  intros Hr. destruct (reachable_inv config disk σ Hr) as (I & _).
  pose proof (chain_lock σ I K) as HL.
  destruct (locks σ !! K) as [q0|]; simpl in HL.
  - destruct HL as (Hlt & (Q0 & HQ0 & HK0) & Hlater). split.
    + split; [discriminate|]. intros Hno. exfalso. eapply Hno; eassumption.
    + intros q [= <-]. split; [eauto|].
      intros q Q Hq HQ. eapply Hlater; [exact Hq | | exact HQ].
      eapply lookup_lt_Some. exact HQ.
  - split; [|discriminate]. split; [|reflexivity].
    intros _ q Q HQ. eapply HL; [|exact HQ]. eapply lookup_lt_Some. exact HQ.
Qed.
End Steps.

Section Closed.
Import Examples Samples.
Local Open Scope nat_scope.

(** The first message of [two_queued] is at its agent call. *)
Lemma request_carries_inbound_witness :
  ∃ s body,
    heap (state_after cfg two_queued) !! 0 = Some s
    ∧ _callAgent_body (msg "m1") None s = Some body
    ∧ body_message body = js "m1"
    ∧ length (body_history body) ≤ 10
    ∧ last (body_history body) = Some (js "user", js "m1").
Proof.
  assert (Hs : ∃ s, heap (state_after cfg two_queued) !! 0 = Some s)
    by (eexists; vm_compute; reflexivity).
  destruct Hs as [s Hs].
  destruct (request_carries_inbound cfg ∅ (state_after cfg two_queued)
              0 (msg "m1") 0 s None) as (body & H1 & H2 & H3 & H4).
  - apply reachable_state_after.
  - vm_compute. reflexivity.
  - exact Hs.
  - exists s, body. repeat (split; [assumption|]). exact H4.
Defined.

Lemma url_trailing_slash_witness :
  _callAgent_url (js "http://agent" ++ js "/") = _callAgent_url (js "http://agent")
  ∧ _callAgent_url (js "http://agent") = js "http://agent" ++ js "/?route=chat".
Proof.
  apply (url_trailing_slash (js "http://agent")). vm_compute. reflexivity.
Defined.

(** Without an endpoint, a message that has been processed has left no
    file and got no reply. *)
Lemma no_endpoint_no_effect_witness :
  files (state_after cfg_none one_started) = ∅
  ∧ promises (state_after cfg_none one_started) !! 0
    = Some (mkPromise (msg "m1") (Settled (Fulfilled None))).
Proof.
  destruct (no_endpoint_no_effect cfg_none ∅ (state_after cfg_none one_started))
    as [HF _].
  - split; [reflexivity|]. intros channel e H.
    change (channels cfg_none) with (∅ : gmap (list N) (list N)) in H.
    rewrite lookup_empty in H. discriminate.
  - apply reachable_state_after.
  - split; [exact HF|]. vm_compute. reflexivity.
Defined.

(** With [maxHistory = 3], after five answered messages. *)
Lemma memory_history_bound_witness :
  ∃ s, heap (state_after cfg3 five_turns) !! 0 = Some s
       ∧ (Z.of_nat (length (history s)) ≤ effective_maxHistory cfg3 + 1)%Z.
Proof.
  assert (Hs : ∃ s, heap (state_after cfg3 five_turns) !! 0 = Some s)
    by (eexists; vm_compute; reflexivity).
  destruct Hs as [s Hs]. exists s. split; [exact Hs|].
  apply (memory_history_bound cfg3 ∅ (state_after cfg3 five_turns)) with (r := 0).
  - unfold config_ok. simpl. lia.
  - apply reachable_state_after.
  - exact Hs.
Defined.

(** The agent answers the first message of [two_queued]. *)
Lemma write_iff_reply_witness :
  ∃ σ',
    step cfg (Resume 0 (answer "r1") 1 None) (state_after cfg two_queued) = Some σ'
    ∧ (files σ' = files (state_after cfg two_queued)
       ∨ ∃ text, promises σ' !! 0
                 = Some (mkPromise (msg "m1")
                           (Settled (Fulfilled (Some (mkReply text ann)))))).
Proof.
  assert (Hs : ∃ σ', step cfg (Resume 0 (answer "r1") 1 None)
                       (state_after cfg two_queued) = Some σ')
    by (eexists; vm_compute; reflexivity).
  destruct Hs as [σ' Hs]. exists σ'. split; [exact Hs|].
  destruct (write_iff_reply cfg ∅ (Resume 0 (answer "r1") 1 None)
              (state_after cfg two_queued) σ' (reachable_state_after cfg two_queued) Hs)
    as [[HF _]|(p & fo & now & ev & r & h & t & text & Ha & HP & _ & _ & _ & HP' & _)].
  - left. exact HF.
  - right. exists text.
    injection Ha as <- _ _.
    assert (Hev : ev = msg "m1").
    { assert (HP0 : promises (state_after cfg two_queued) !! 0
                    = Some (mkPromise (msg "m1") (Running 0)))
        by (vm_compute; reflexivity).
      rewrite HP0 in HP. injection HP as <- _. reflexivity. }
    rewrite Hev in HP'. exact HP'.
Defined.

(** The session of [ann] is on the disk and not in memory when its
    message is started. *)
Lemma cold_session_from_file_witness :
  ∃ σ1 r,
    step cfg (Start 0 5) cold_state = Some σ1
    ∧ heap σ1 !! r
      = Some (mkSession (truncate cfg (file_with_ids ++ [user_turn (msg "m3") 5]))
                (Some (js "T2")) 5).
Proof.
  destruct (cold_session_from_file cfg cold_state 0 (msg "m3") None None 5%Z)
    as (σ1 & r & H1 & _ & _ & H2 & _).
  - exact I.
  - vm_compute. discriminate.
  - vm_compute. reflexivity.
  - reflexivity.
  - vm_compute. reflexivity.
  - exists σ1, r. split; [exact H1|exact H2].
Defined.

(** The session of the first message of [two_queued] is swept during its
    agent call. *)
Lemma eviction_during_call_witness :
  sessions (cleanExpiredSessions (state_after cfg two_queued) 100 10) !! ann = None
  ∧ ∃ σ2,
      step cfg (Resume 0 (answer "r1") 101 None)
        (cleanExpiredSessions (state_after cfg two_queued) 100 10) = Some σ2
      ∧ sessions σ2 !! ann = Some 0.
Proof.
  split; [vm_compute; reflexivity|].
  assert (Hs : ∃ s, heap (state_after cfg two_queued) !! 0 = Some s)
    by (eexists; vm_compute; reflexivity).
  destruct Hs as [s Hs].
  destruct (eviction_during_call cfg (state_after cfg two_queued) 0 (msg "m1") 0 s
              100%Z 10%Z (mkAgentData (Some (js "r1")) None None None None)
              (js "r1") 101%Z) as (_ & σ2 & H1 & H2 & _).
  - vm_compute. reflexivity.
  - exact Hs.
  - reflexivity.
  - exists σ2. split; [exact H1|exact H2].
Defined.

(** With [maxHistory = -2] the first message of a session is dropped. *)
Lemma negative_maxHistory_drops_witness :
  ∃ σ2,
    _processMessage_begin cfg_neg (init ∅) (msg "m1") 0
    = Some (σ2, Done (Fulfilled None))
    ∧ history <$> heap σ2 !! 0 = Some [].
Proof.
  assert (Hl : ∃ σ1, _loadSession (init ∅) (sessionKey_of (msg "m1")) 0 = (σ1, 0)
                     ∧ heap σ1 !! 0 = Some (mkSession [] None 0))
    by (eexists; split; vm_compute; reflexivity).
  destruct Hl as (σ1 & Hl & Hh).
  destruct (negative_maxHistory_drops cfg_neg (init ∅) σ1 (msg "m1") 0%Z (-2)%Z 0
              (mkSession [] None 0%Z)) as [_ H].
  - reflexivity.
  - lia.
  - apply H; [exact Hl|exact Hh|simpl; lia].
Defined.

(** In [two_queued] the entry of [ann] is its second message. *)
Lemma locks_hold_last_promise_witness :
  locks (state_after cfg two_queued) !! ann = Some 1
  ∧ (∃ Q0, promises (state_after cfg two_queued) !! 1 = Some Q0 ∧ key Q0 = ann)
  ∧ ∀ q Q, 1 < q → promises (state_after cfg two_queued) !! q = Some Q →
           key Q ≠ ann.
Proof.
  assert (H : locks (state_after cfg two_queued) !! ann = Some 1)
    by (vm_compute; reflexivity).
  split; [exact H|].
  apply (proj2 (locks_hold_last_promise cfg ∅ (state_after cfg two_queued) ann
                  (reachable_state_after cfg two_queued)) 1 H).
Defined.

End Closed.

End GatewayExtras.

(** * Properties of [splitMessage] *)

Module ChannelExtras.
Import Channels PolicyExtras.

Open Scope nat_scope.

Lemma lastIndexOf_range (c : N) (s : jsstring) (i : nat) :
  (-1 ≤ lastIndexOf c s i ≤ Z.of_nat i)%Z.
Proof.
  induction i as [|i IH]; simpl.
  - destruct (s !! 0) as [d|]; [destruct (d =? c)%N|]; lia.
  - destruct (s !! S i) as [d|]; [destruct (d =? c)%N|]; lia.
Qed.

(** The cut is in the second half of the first [maxLen] characters. *)
Lemma cut_range (maxLen : nat) (remaining : jsstring) :
  1 ≤ maxLen →
  1 ≤ cut maxLen remaining ≤ maxLen ∧ maxLen ≤ 2 * cut maxLen remaining.
Proof.
  intros Hm. unfold cut.
  pose proof (lastIndexOf_range 10 remaining maxLen) as Hr.
  destruct (Z.ltb_spec (2 * lastIndexOf 10 remaining maxLen) (Z.of_nat maxLen)); lia.
Qed.

Lemma visible_blank (w : jsstring) :
  Forall (λ c, is_space c = true) w → filter (λ c, is_space c = false) w = [].
Proof.
  induction 1 as [|c w Hc _ IH]; [reflexivity|].
  rewrite filter_cons_False by congruence. exact IH.
Qed.

(** What a cut loses is white space. *)
Lemma visible_cut (k : nat) (s : jsstring) :
  filter (λ c, is_space c = false) s
  = filter (λ c, is_space c = false) (take k s)
    ++ filter (λ c, is_space c = false) (drop_while is_space (drop k s)).
Proof.
  rewrite <- (take_drop k s) at 1. rewrite filter_app. f_equal.
  destruct (drop_while_split is_space (drop k s)) as (w & Hw & Hblank).
  rewrite Hw at 1. rewrite filter_app, (visible_blank _ Hblank). reflexivity.
Qed.

Lemma length_drop_while (p : N → bool) (s : jsstring) :
  length (drop_while p s) ≤ length s.
Proof.
  induction s as [|c s IH]; simpl; [lia|]. destruct (p c); simpl; lia.
Qed.

(** The loop for a limit of at least one: it ends within as many rounds as
    [remaining] is long and one more, every piece is within the limit and
    not empty, every piece but the last fills at least half of the limit,
    and nothing but white space is lost. *)
Lemma split_loop_spec (maxLen : nat) :
  1 ≤ maxLen →
  ∀ (fuel : nat) (remaining : jsstring),
    length remaining < fuel →
    ∃ chunks,
      split_loop fuel maxLen remaining = Some chunks
      ∧ Forall (λ c, 1 ≤ length c ≤ maxLen) chunks
      ∧ (∀ i c, chunks !! i = Some c → S i < length chunks → maxLen ≤ 2 * length c)
      ∧ filter (λ c, is_space c = false) (concat chunks)
        = filter (λ c, is_space c = false) remaining.
Proof.
  intros Hm. induction fuel as [|fuel IH]; intros remaining Hlen; [lia|].
  destruct remaining as [|c0 rest].
  - exists []. repeat split; [constructor | intros i c H; discriminate].
  - set (rem := c0 :: rest) in *.
    assert (Hpos : 1 ≤ length rem) by (simpl; lia).
    change (split_loop (S fuel) maxLen rem)
      with (if length rem <=? maxLen then Some [rem]
            else match split_loop fuel maxLen
                         (drop_while is_space (drop (cut maxLen rem) rem)) with
                 | Some chunks => Some (take (cut maxLen rem) rem :: chunks)
                 | None => None
                 end).
    destruct (Nat.leb_spec (length rem) maxLen) as [Hfit|Hlong].
    + exists [rem]. split; [reflexivity|]. split.
      * constructor; [lia | constructor].
      * split; [intros i c H Hi; simpl in Hi; lia|]. simpl.
        rewrite app_nil_r. reflexivity.
    + destruct (cut_range maxLen rem Hm) as [[Hc1 Hc2] Hhalf].
      set (k := cut maxLen rem) in *.
      assert (Htake : length (take k rem) = k) by (rewrite length_take; lia).
      destruct (IH (drop_while is_space (drop k rem)))
        as (chunks & -> & HF & HH & HV).
      { pose proof (length_drop_while is_space (drop k rem)).
        rewrite length_drop in *. lia. }
      exists (take k rem :: chunks). split; [reflexivity|]. split.
      * constructor; [rewrite Htake; lia | exact HF].
      * split.
        -- intros [|i] c Hi Hl; simpl in Hi.
           ++ injection Hi as <-. rewrite Htake. exact Hhalf.
           ++ apply (HH i c Hi). simpl in Hl. lia.
        -- simpl. rewrite filter_app, HV. symmetry. apply visible_cut.
Qed.

(** X17.  With a limit of at least one character, [splitMessage] returns;
    every piece is within the limit, and for a text that is not empty no
    piece is empty; every piece but the last is at least half the limit
    long. *)
Theorem splitMessage_within_limit (text : jsstring) (maxLen : nat) :
  1 ≤ maxLen →
  ∃ chunks,
    splitMessage text maxLen = Some chunks
    ∧ Forall (λ c, length c ≤ maxLen) chunks
    ∧ (text ≠ [] → Forall (λ c, c ≠ []) chunks)
    ∧ ∀ i c, chunks !! i = Some c → S i < length chunks → maxLen ≤ 2 * length c.
Proof.
  intros Hm. unfold splitMessage.
  destruct (Nat.leb_spec (length text) maxLen) as [Hfit|Hlong].
  - exists [text]. split; [reflexivity|]. split; [repeat constructor; exact Hfit|].
    split; [intros Hne; repeat constructor; exact Hne|].
    intros i c _ Hi. simpl in Hi. lia.
  - destruct (split_loop_spec maxLen Hm (S (length text)) text)
      as (chunks & E & HF & HH & _); [lia|].
    exists chunks. split; [exact E|]. split; [|split; [|exact HH]].
    + eapply Forall_impl; [exact HF|]. simpl. intros c Hc. lia.
    + intros _. eapply Forall_impl; [exact HF|]. simpl.
      intros c Hc ->. simpl in Hc. lia.
Qed.

(** X18.  The pieces of [splitMessage] are the text in order, but for
    white space: when the white space is taken out of the pieces and of
    the text, what is left is the same. *)
Theorem splitMessage_keeps_text (text : jsstring) (maxLen : nat)
    (chunks : list jsstring) :
  1 ≤ maxLen →
  splitMessage text maxLen = Some chunks →
  filter (λ c, is_space c = false) (concat chunks)
  = filter (λ c, is_space c = false) text.
Proof.
  intros Hm. unfold splitMessage.
  destruct (Nat.leb_spec (length text) maxLen) as [Hfit|Hlong].
  - intros [= <-]. simpl. rewrite app_nil_r. reflexivity.
  - destruct (split_loop_spec maxLen Hm (S (length text)) text)
      as (chunks' & E & _ & _ & HV); [lia|].
    rewrite E. intros [= <-]. exact HV.
Qed.

(** X19. With the limit 0 and a text that does not start with white space
    the loop of [splitMessage] cuts off nothing and goes on with the same
    text: no number of rounds ends it, the call does not return. *)
Theorem splitMessage_limit_zero (c : N) (rest : jsstring) :
  is_space c = false →
  splitMessage (c :: rest) 0 = None
  ∧ ∀ fuel, split_loop fuel 0 (c :: rest) = None.
Proof.
  intros Hc.
  assert (Hcut : cut 0 (c :: rest) = 0).
  { unfold cut. cbn [lastIndexOf lookup list_lookup].
    destruct (N.eqb_spec c 10) as [->|_]; [discriminate Hc|reflexivity]. }
  assert (H : ∀ fuel, split_loop fuel 0 (c :: rest) = None).
  { induction fuel as [|fuel IH]; [reflexivity|].
    cbn [split_loop]. change (length (c :: rest) <=? 0) with false. cbv iota.
    rewrite Hcut. cbn [drop drop_while]. rewrite Hc, IH. reflexivity. }
  split; [|exact H]. unfold splitMessage.
  change (length (c :: rest) <=? 0) with false. cbv iota. apply H.
Qed.

Section Closed.
Import Samples.
Local Open Scope nat_scope.

(** Two lines of 26 characters, cut to pieces of at most ten. *)
Lemma splitMessage_within_limit_witness :
  ∃ chunks,
    splitMessage two_lines 10 = Some chunks
    ∧ Forall (λ c, length c ≤ 10) chunks
    ∧ Forall (λ c, c ≠ []) chunks.
Proof.
  destruct (splitMessage_within_limit two_lines 10) as (chunks & H1 & H2 & H3 & _).
  - lia.
  - exists chunks. split; [exact H1|]. split; [exact H2|].
    apply H3. vm_compute. discriminate.
Defined.

Lemma splitMessage_keeps_text_witness :
  splitMessage two_lines 10
  = Some [js "hello"; js "world this"; js "is a test"]
  ∧ filter (λ c, is_space c = false)
      (concat [js "hello"; js "world this"; js "is a test"])
    = filter (λ c, is_space c = false) two_lines.
Proof.
  assert (H : splitMessage two_lines 10
              = Some [js "hello"; js "world this"; js "is a test"])
    by (vm_compute; reflexivity).
  split; [exact H|].
  apply (splitMessage_keeps_text two_lines 10 _ ltac:(lia) H).
Defined.

Lemma splitMessage_limit_zero_witness :
  splitMessage (js "abc") 0 = None
  ∧ ∀ fuel, split_loop fuel 0 (js "abc") = None.
Proof.
  apply (splitMessage_limit_zero 97%N (js "bc")). reflexivity.
Defined.

End Closed.

End ChannelExtras.

(** * Properties of the memory files *)

Module MemoryExtras.
Import Request Memory.

Open Scope nat_scope.

Lemma index_of_nil (s : jsstring) : index_of s [] = Some 0.
Proof. destruct s; reflexivity. Qed.

Lemma split_ws_head (s : jsstring) (current : jsstring) :
  hd [] (split_go s current false) = rev current ++ split_ws_first s.
Proof.
  revert current. induction s as [|c s IH]; intros current.
  - simpl. rewrite app_nil_r. reflexivity.
  - unfold split_ws_first. simpl. destruct (is_space c); simpl.
    + rewrite app_nil_r. reflexivity.
    + rewrite IH. simpl. rewrite <- app_assoc. reflexivity.
Qed.

Lemma split_go_blank_end (s : jsstring) (c : N) (current : jsstring) (gap : bool) :
  is_space c = true → (gap = true → current = []) →
  [] ∈ split_go (s ++ [c]) current gap.
Proof.
  intros Hc. revert current gap.
  induction s as [|d s IH]; intros current gap Hg; simpl.
  - rewrite Hc. destruct gap.
    + rewrite (Hg eq_refl). simpl. set_solver.
    + simpl. set_solver.
  - destruct (is_space d).
    + destruct gap.
      * apply IH. exact Hg.
      * apply elem_of_cons. right. apply IH. reflexivity.
    + apply IH. discriminate.
Qed.

Lemma split_ws_blank (q : jsstring) :
  q = [] ∨ trim q ≠ q → [] ∈ split_ws q.
Proof.
  intros H. unfold split_ws.
  destruct q as [|c r]; [apply elem_of_cons; left; reflexivity|].
  destruct H as [H|H]; [discriminate|].
  destruct (is_space c) eqn:Ec; [simpl; rewrite Ec; set_solver|].
  destruct (rev (c :: r)) as [|d t] eqn:Er.
  { apply (f_equal (@length N)) in Er. rewrite length_rev in Er. discriminate. }
  assert (Hq : c :: r = rev t ++ [d]).
  { rewrite <- (rev_involutive (c :: r)), Er. reflexivity. }
  destruct (is_space d) eqn:Ed.
  - rewrite Hq. apply split_go_blank_end; [exact Ed|discriminate].
  - exfalso. apply H. unfold trim.
    cbn [drop_while]. rewrite Ec, Er. cbn [drop_while]. rewrite Ed.
    rewrite <- Er. apply rev_involutive.
Qed.

Lemma starts_with_app (t r : jsstring) : starts_with (t ++ r) t = true.
Proof.
  induction t as [|b t IH]; [destruct r; reflexivity|].
  simpl. rewrite N.eqb_refl. exact IH.
Qed.





Section Facts.
Variable toLowerCase : jsstring → jsstring.

(** X20. A query that is empty, or that starts or ends with white space
    once lowercased, has the empty text among its words; every file of the
    memory directory whose name ends in [.md] is then returned, whatever
    it holds. *)
Theorem blank_query_finds_all (files : gmap (list N) (list N))
    (query file content : jsstring) :
  toLowerCase query = [] ∨ trim (toLowerCase query) ≠ toLowerCase query →
  files !! file = Some content →
  ends_with file (js ".md") = true →
  mkFound (remove_first file (js ".md")) content
    ∈ searchMemory toLowerCase (Some files) query.
Proof.
  intros Hq Hf He. unfold searchMemory.
  apply list_elem_of_omap. exists (file, content). split.
  - apply elem_of_map_to_list. exact Hf.
  - rewrite He. unfold matches.
    assert (Hm : existsb (has_substring (toLowerCase content))
                   (split_ws (toLowerCase query)) = true).
    { apply existsb_exists. exists []. split.
      - apply list_elem_of_In, split_ws_blank. exact Hq.
      - unfold has_substring. rewrite index_of_nil. reflexivity. }
    rewrite Hm. reflexivity.
Qed.


End Facts.

Section Closed.
Import Samples.
Local Open Scope nat_scope.

(** The query [milk ] ends with a space: the note is found, and would be
    whatever it held. *)
Lemma blank_query_finds_all_witness :
  mkFound (remove_first (js "todo.md") (js ".md")) (js "Buy Milk")
    ∈ searchMemory ascii_lower (Some notes) (js "milk ").
Proof.
  apply (blank_query_finds_all ascii_lower notes (js "milk ") (js "todo.md")
           (js "Buy Milk")).
  - right. vm_compute. discriminate.
  - vm_compute. reflexivity.
  - vm_compute. reflexivity.
Defined.


End Closed.

End MemoryExtras.
